(** * Map-relative localisation: the matching orchestrator

    A shallow embedding of [lidar_localization::Matching]
    (src/matching/matching.cpp) and the properties of its scan update loop,
    its sliding local map and its initialisation logic.

    Conventions of the embedding.
    - The arithmetic the code takes from C++, Eigen and PCL ([float] with
      its subtraction, [fabs] and comparison, [Eigen::Matrix4f] with [*],
      [inverse()], [Identity()] and coefficient access, the points of a
      cloud with [pcl_isfinite] and [pcl::transformPointCloud]) is an
      interface, [Numerics]; the orchestrator is embedded over any
      implementation of it. Two implementations are given: exact arithmetic
      in an ordered ring ([Exact.numerics]), and IEEE 754 binary32 with
      poses that do not rotate ([Binary32.numerics]).
    - Point clouds live in a memory addressed by [CLOUD_PTR]; the object and
      its caller share that memory, so writes through aliased pointers are
      visible on both sides.
    - The collaborators behind interfaces (cloud filters, box filter,
      registration, scan context, the map file) are parameters of the model.
    - The function-local [static] variables of the source are fields of the
      state; two ghost logs record the calls made to the box filter and to
      the registration. *)

From HB Require Import structures.
From mathcomp Require Import boot order algebra.
From Stdlib Require String ZArith SpecFloat.

Set Implicit Arguments.
Unset Strict Implicit.
Unset Printing Implicit Defensive.

Import Order.TTheory GRing.Theory Num.Theory.
Local Open Scope ring_scope.

(** A [CloudData::CLOUD_PTR] is an address in the memory of clouds;
    [new CloudData::CLOUD()] yields the next unused one, holding an empty
    cloud. *)
Definition CLOUD_PTR := nat.

(** ** Scalars, poses and points

    The operations below are those matching.cpp applies to its numbers.
    A [float] difference is a [float]; [fabs] and the comparison with the
    literal [50.0] then run in [double], to which a [float] converts without
    change, so that the test [fabs(a - b) > 50.0] is [fgt (fabs (fsub a b))
    fifty] on [float]s. *)

Record Numerics : Type := mkNumerics {
  float : Type;                                     (* float *)
  fzero : float;                                    (* 0.0 *)
  fifty : float;                                    (* 50.0 *)
  fsub : float -> float -> float;                   (* a - b *)
  fabs : float -> float;                            (* fabs(a) *)
  fgt : float -> float -> bool;                     (* a > b *)
  POINT : Type;                                     (* CloudData::POINT *)
  isFinitePoint : POINT -> bool;                    (* pcl_isfinite of x, y and z *)
  Matrix4f : Type;                                  (* Eigen::Matrix4f *)
  Identity : Matrix4f;                              (* Eigen::Matrix4f::Identity() *)
  mul : Matrix4f -> Matrix4f -> Matrix4f;           (* A * B *)
  inverse : Matrix4f -> Matrix4f;                   (* A.inverse() *)
  coeff : Matrix4f -> nat -> nat -> float;          (* A(i, j) *)
  (* pcl::transformPointCloud(cloud_in, cloud_out, transform) *)
  transformPointCloud : seq POINT -> Matrix4f -> seq POINT
}.

Arguments fsub {n}.
Arguments fabs {n}.
Arguments fgt {n}.
Arguments isFinitePoint {n}.
Arguments mul {n}.
Arguments inverse {n}.
Arguments coeff {n}.
Arguments transformPointCloud {n}.

(** *** Exact arithmetic

    [float] idealised as the elements of an ordered ring [R] (no rounding,
    no NaN inside a pose), [Eigen::Matrix4f] as the 4x4 matrices over [R];
    a coordinate of a point keeps the one distinction the code looks at: it
    is finite or it is not. *)

Module Exact.
Section Numerics.

Variable R : realDomainType.

Inductive pcl_float : Type :=
  | Finite (r : R)
  | NonFinite.

Record PointXYZ : Type := mkPoint { px : pcl_float; py : pcl_float; pz : pcl_float }.

Definition pcl_isfinite (f : pcl_float) : bool :=
  if f is Finite _ then true else false.

Definition isFinitePoint (p : PointXYZ) : bool :=
  [&& pcl_isfinite (px p), pcl_isfinite (py p) & pcl_isfinite (pz p)].

Definition fadd (a b : pcl_float) : pcl_float :=
  match a, b with
  | Finite u, Finite v => Finite (u + v)
  | _, _ => NonFinite
  end.

Definition fscale (k : R) (a : pcl_float) : pcl_float :=
  if a is Finite u then Finite (k * u) else NonFinite.

Definition Matrix4f := 'M[R]_4.

Definition Identity : Matrix4f := 1%:M.

(** [M(i, j)], the coefficient access of Eigen. *)
Definition coeff (M : Matrix4f) (i j : nat) : R := M (inord i) (inord j).

Definition transformPoint (T : Matrix4f) (p : PointXYZ) : PointXYZ :=
  let row i :=
    fadd (fadd (fadd (fscale (coeff T i 0) (px p)) (fscale (coeff T i 1) (py p)))
               (fscale (coeff T i 2) (pz p)))
         (Finite (coeff T i 3)) in
  mkPoint (row 0%N) (row 1%N) (row 2%N).

(** [pcl::transformPointCloud]. *)
Definition transformPointCloud (c : seq PointXYZ) (T : Matrix4f) : seq PointXYZ :=
  [seq transformPoint T p | p <- c].

Definition numerics : Numerics :=
  @mkNumerics R 0 50%:R (fun a b => a - b) (fun a => `|a|) (fun a b => a > b)
    PointXYZ isFinitePoint
    Matrix4f Identity (fun A B => A *m B) (fun A => invmx A) coeff
    transformPointCloud.

End Numerics.
End Exact.

Section Orchestrator.

Variable N : Numerics.

Local Notation float := (float N).
Local Notation fzero := (fzero N).
Local Notation fifty := (fifty N).
Local Notation POINT := (POINT N).
Local Notation Matrix4f := (Matrix4f N).
Local Notation Identity := (Identity N).

(** *** Clouds (PCL) *)

Definition CLOUD := seq POINT.

(** [pcl::removeNaNFromPointCloud]: the points with three finite
    coordinates, in their order. *)
Definition removeNaNFromPointCloud (c : CLOUD) : CLOUD :=
  [seq p <- c | isFinitePoint p].

(** *** The shared memory *)

Definition Mem := seq CLOUD.

Definition load (h : Mem) (p : CLOUD_PTR) : CLOUD := nth [::] h p.

Definition store (h : Mem) (p : CLOUD_PTR) (c : CLOUD) : Mem := set_nth [::] h p c.

Definition new_CLOUD (h : Mem) : CLOUD_PTR * Mem := (size h, rcons h [::]).

(** *** The box filter *)

Record Edge : Type := mkEdge {
  xmin : float; xmax : float; ymin : float; ymax : float; zmin : float; zmax : float
}.

(** [edge.at(k)] on the six-element vector returned by [GetEdge]. *)
Definition at_ (e : Edge) (k : nat) : float :=
  match k with
  | 0%N => xmin e
  | 1%N => xmax e
  | 2%N => ymin e
  | 3%N => ymax e
  | 4%N => zmin e
  | _ => zmax e
  end.

Definition Origin : Type := (float * float * float)%type.

Record BoxFilter : Type := mkBoxFilter { origin_ : Origin; edge_ : Edge }.

(** *** Static locals of [Update] *)

Record UpdateStatics : Type := mkStatics {
  step_pose : Matrix4f;
  last_pose : Matrix4f;
  predict_pose : Matrix4f
}.

(** *** Ghost records of collaborator calls *)

Record BoxFilterCall : Type := mkBoxCall {
  call_origin : Origin;        (* the origin given to SetOrigin *)
  call_input : CLOUD           (* the cloud handed to Filter *)
}.

Record ScanMatchCall : Type := mkScanMatchCall {
  call_source : CLOUD_PTR;     (* filtered_cloud_ptr *)
  call_seed : Matrix4f;        (* predict_pose *)
  call_result : CLOUD_PTR      (* result_cloud_ptr *)
}.

(** *** The object *)

Record Matching : Type := mkMatching {
  mem : Mem;
  global_map_ptr_ : CLOUD_PTR;
  local_map_ptr_ : CLOUD_PTR;
  current_scan_ptr_ : CLOUD_PTR;
  box_filter_ptr_ : BoxFilter;
  registration_ptr_ : CLOUD;             (* the input target of the registration *)
  init_pose_ : Matrix4f;
  current_gnss_pose_ : Matrix4f;
  has_inited_ : bool;
  has_new_global_map_ : bool;
  has_new_local_map_ : bool;
  gnss_cnt : nat;                        (* static local of SetGNSSPose *)
  statics : option UpdateStatics;        (* static locals of Update, None before its first call *)
  box_calls : seq BoxFilterCall;         (* ghost *)
  scanmatch_calls : seq ScanMatchCall    (* ghost *)
}.

Definition set_mem m v :=
  mkMatching v (global_map_ptr_ m) (local_map_ptr_ m) (current_scan_ptr_ m)
    (box_filter_ptr_ m) (registration_ptr_ m) (init_pose_ m) (current_gnss_pose_ m)
    (has_inited_ m) (has_new_global_map_ m) (has_new_local_map_ m) (gnss_cnt m)
    (statics m) (box_calls m) (scanmatch_calls m).

Definition set_box_filter m v :=
  mkMatching (mem m) (global_map_ptr_ m) (local_map_ptr_ m) (current_scan_ptr_ m)
    v (registration_ptr_ m) (init_pose_ m) (current_gnss_pose_ m)
    (has_inited_ m) (has_new_global_map_ m) (has_new_local_map_ m) (gnss_cnt m)
    (statics m) (box_calls m) (scanmatch_calls m).

Definition set_registration m v :=
  mkMatching (mem m) (global_map_ptr_ m) (local_map_ptr_ m) (current_scan_ptr_ m)
    (box_filter_ptr_ m) v (init_pose_ m) (current_gnss_pose_ m)
    (has_inited_ m) (has_new_global_map_ m) (has_new_local_map_ m) (gnss_cnt m)
    (statics m) (box_calls m) (scanmatch_calls m).

Definition set_init_pose m v :=
  mkMatching (mem m) (global_map_ptr_ m) (local_map_ptr_ m) (current_scan_ptr_ m)
    (box_filter_ptr_ m) (registration_ptr_ m) v (current_gnss_pose_ m)
    (has_inited_ m) (has_new_global_map_ m) (has_new_local_map_ m) (gnss_cnt m)
    (statics m) (box_calls m) (scanmatch_calls m).

Definition set_current_gnss_pose m v :=
  mkMatching (mem m) (global_map_ptr_ m) (local_map_ptr_ m) (current_scan_ptr_ m)
    (box_filter_ptr_ m) (registration_ptr_ m) (init_pose_ m) v
    (has_inited_ m) (has_new_global_map_ m) (has_new_local_map_ m) (gnss_cnt m)
    (statics m) (box_calls m) (scanmatch_calls m).

Definition set_has_inited m v :=
  mkMatching (mem m) (global_map_ptr_ m) (local_map_ptr_ m) (current_scan_ptr_ m)
    (box_filter_ptr_ m) (registration_ptr_ m) (init_pose_ m) (current_gnss_pose_ m)
    v (has_new_global_map_ m) (has_new_local_map_ m) (gnss_cnt m)
    (statics m) (box_calls m) (scanmatch_calls m).

Definition set_has_new_global_map m v :=
  mkMatching (mem m) (global_map_ptr_ m) (local_map_ptr_ m) (current_scan_ptr_ m)
    (box_filter_ptr_ m) (registration_ptr_ m) (init_pose_ m) (current_gnss_pose_ m)
    (has_inited_ m) v (has_new_local_map_ m) (gnss_cnt m)
    (statics m) (box_calls m) (scanmatch_calls m).

Definition set_has_new_local_map m v :=
  mkMatching (mem m) (global_map_ptr_ m) (local_map_ptr_ m) (current_scan_ptr_ m)
    (box_filter_ptr_ m) (registration_ptr_ m) (init_pose_ m) (current_gnss_pose_ m)
    (has_inited_ m) (has_new_global_map_ m) v (gnss_cnt m)
    (statics m) (box_calls m) (scanmatch_calls m).

Definition set_gnss_cnt m v :=
  mkMatching (mem m) (global_map_ptr_ m) (local_map_ptr_ m) (current_scan_ptr_ m)
    (box_filter_ptr_ m) (registration_ptr_ m) (init_pose_ m) (current_gnss_pose_ m)
    (has_inited_ m) (has_new_global_map_ m) (has_new_local_map_ m) v
    (statics m) (box_calls m) (scanmatch_calls m).

Definition set_statics m v :=
  mkMatching (mem m) (global_map_ptr_ m) (local_map_ptr_ m) (current_scan_ptr_ m)
    (box_filter_ptr_ m) (registration_ptr_ m) (init_pose_ m) (current_gnss_pose_ m)
    (has_inited_ m) (has_new_global_map_ m) (has_new_local_map_ m) (gnss_cnt m)
    v (box_calls m) (scanmatch_calls m).

Definition set_box_calls m v :=
  mkMatching (mem m) (global_map_ptr_ m) (local_map_ptr_ m) (current_scan_ptr_ m)
    (box_filter_ptr_ m) (registration_ptr_ m) (init_pose_ m) (current_gnss_pose_ m)
    (has_inited_ m) (has_new_global_map_ m) (has_new_local_map_ m) (gnss_cnt m)
    (statics m) v (scanmatch_calls m).

Definition set_scanmatch_calls m v :=
  mkMatching (mem m) (global_map_ptr_ m) (local_map_ptr_ m) (current_scan_ptr_ m)
    (box_filter_ptr_ m) (registration_ptr_ m) (init_pose_ m) (current_gnss_pose_ m)
    (has_inited_ m) (has_new_global_map_ m) (has_new_local_map_ m) (gnss_cnt m)
    (statics m) (box_calls m) v.

(** [*p = c] for a cloud pointer [p]. *)
Definition write (m : Matching) (p : CLOUD_PTR) (c : CLOUD) : Matching :=
  set_mem m (store (mem m) p c).

Definition read (m : Matching) (p : CLOUD_PTR) : CLOUD := load (mem m) p.


(** ** Collaborators

    What the orchestrator reaches through an interface; none of it is part
    of matching.cpp. *)

(** The point cloud that [pcl::io::loadPCDFile] reads at [map_path_]. *)
Variable map_file : CLOUD.

(** [CloudFilterInterface::Filter] of the three configured filters
    ([InitFilter]: a voxel filter or no filter), as the cloud each one
    computes from its input. *)
Variable global_map_filter : CLOUD -> CLOUD.
Variable local_map_filter : CLOUD -> CLOUD.
Variable frame_filter : CLOUD -> CLOUD.

(** [BoxFilter]: the edges it derives from an origin and its configured
    size, and the points of the input it keeps for given edges. *)
Variable CalculateEdge : Origin -> Edge.
Variable box_crop : Edge -> CLOUD -> CLOUD.

(** [RegistrationInterface::ScanMatch], from the input target, the source
    cloud and the predicted pose to the aligned cloud and the refined pose. *)
Variable ScanMatch : CLOUD -> CLOUD -> Matrix4f -> CLOUD * Matrix4f.

(** [ScanContextManager::DetectLoopClosure]: the proposed pose, if any. *)
Variable DetectLoopClosure : CLOUD -> option Matrix4f.

(** Modelled from the spec: [CloudFilterInterface::Filter(input, output)] of
    models/cloud_filter (not under src/), "given a point cloud, returns a
    reduced-density version"; the cloud behind the output pointer becomes
    the filter's result on the cloud behind the input pointer. *)
Definition Filter (f : CLOUD -> CLOUD) (m : Matching) (input output : CLOUD_PTR) : Matching :=
  write m output (f (read m input)).

(** Modelled from the spec: [BoxFilter::SetOrigin] and [BoxFilter::GetEdge]
    of models/cloud_filter/box_filter (not under src/); the six edges are
    "derived deterministically from origin plus a fixed configured
    half-extent" and reported as they currently are. *)
Definition SetOrigin (origin : Origin) : BoxFilter :=
  mkBoxFilter origin (CalculateEdge origin).

Definition GetEdge (b : BoxFilter) : Edge := edge_ b.

(** Modelled from the spec: [BoxFilter::Filter] (not under src/), "returns
    the subset of points inside an axis-aligned box around the origin",
    written behind the output pointer. *)
Definition BoxFilter_Filter (m : Matching) (input output : CLOUD_PTR) : Matching :=
  write m output (box_crop (edge_ (box_filter_ptr_ m)) (read m input)).

(** Modelled from the spec: [RegistrationInterface::SetInputTarget] (not
    under src/), "SetTarget(cloud)": the registration keeps the cloud it is
    given as its target. *)
Definition SetInputTarget (m : Matching) (target : CLOUD_PTR) : Matching :=
  set_registration m (read m target).

(** ** The member functions of matching.cpp *)

Definition InitGlobalMap (m : Matching) : Matching :=
  (* pcl::io::loadPCDFile(map_path_, *global_map_ptr_) *)
  let m := write m (global_map_ptr_ m) map_file in
  (* local_map_filter_ptr_->Filter(global_map_ptr_, global_map_ptr_) *)
  let m := Filter local_map_filter m (global_map_ptr_ m) (global_map_ptr_ m) in
  set_has_new_global_map m true.

Definition ResetLocalMap (m : Matching) (x y z : float) : Matching :=
  let origin := (x, y, z) in
  let m := set_box_filter m (SetOrigin origin) in
  let m := set_box_calls m
             (rcons (box_calls m) (mkBoxCall origin (read m (global_map_ptr_ m)))) in
  let m := BoxFilter_Filter m (global_map_ptr_ m) (local_map_ptr_ m) in
  let m := SetInputTarget m (local_map_ptr_ m) in
  set_has_new_local_map m true.

(** The static locals as the body of [Update] sees them: initialised from
    [init_pose_] when control first passes their declarations. *)
Definition enter_statics (m : Matching) : UpdateStatics :=
  if statics m is Some s then s
  else mkStatics Identity (init_pose_ m) (init_pose_ m).

(** The loop [for (int i = 0; i < 3; i++)] over the axes, at index [i] with
    [n] iterations left. *)
Fixpoint edge_loop (m : Matching) (cloud_pose : Matrix4f) (edge : Edge)
    (i n : nat) : Matching :=
  match n with
  | 0%N => m
  | n'.+1 =>
      if fgt (fabs (fsub (coeff cloud_pose i 3) (at_ edge (2 * i)))) fifty
         && fgt (fabs (fsub (coeff cloud_pose i 3) (at_ edge (2 * i + 1)))) fifty
      then edge_loop m cloud_pose edge i.+1 n'                    (* continue *)
      else ResetLocalMap m (coeff cloud_pose 0 3) (coeff cloud_pose 1 3)
                           (coeff cloud_pose 2 3)                  (* break *)
  end.

(** [Update(cloud_data, cloud_pose)]: [cloud_ptr] is [cloud_data.cloud_ptr];
    the result carries the pose written to [cloud_pose]. *)
Definition Update (m : Matching) (cloud_ptr : CLOUD_PTR) : Matching * Matrix4f :=
  let s := enter_statics m in
  (* remove invalid measurements, in place *)
  let m := write m cloud_ptr (removeNaNFromPointCloud (read m cloud_ptr)) in
  (* downsample *)
  let: (filtered_cloud_ptr, h) := new_CLOUD (mem m) in
  let m := set_mem m h in
  let m := Filter frame_filter m cloud_ptr filtered_cloud_ptr in
  let predict_pose0 :=
    if ~~ has_inited_ m then current_gnss_pose_ m else predict_pose s in
  (* matching *)
  let: (result_cloud_ptr, h) := new_CLOUD (mem m) in
  let m := set_mem m h in
  let m := set_scanmatch_calls m
             (rcons (scanmatch_calls m)
                    (mkScanMatchCall filtered_cloud_ptr predict_pose0 result_cloud_ptr)) in
  let matched := ScanMatch (registration_ptr_ m) (read m filtered_cloud_ptr) predict_pose0 in
  let cloud_pose := matched.2 in
  let m := write m result_cloud_ptr matched.1 in
  let m := write m (current_scan_ptr_ m)
             (transformPointCloud (read m cloud_ptr) cloud_pose) in
  (* update predicted pose *)
  let step_pose1 := mul (inverse (last_pose s)) cloud_pose in
  let predict_pose1 := mul cloud_pose step_pose1 in
  let last_pose1 := cloud_pose in
  let m := set_statics m (Some (mkStatics step_pose1 last_pose1 predict_pose1)) in
  (* refresh the local map when the pose comes close to its edges *)
  let edge := GetEdge (box_filter_ptr_ m) in
  (edge_loop m cloud_pose edge 0 3, cloud_pose).

Definition SetInitPose (m : Matching) (init_pose : Matrix4f) : Matching :=
  let m := set_init_pose m init_pose in
  ResetLocalMap m (coeff init_pose 0 3) (coeff init_pose 1 3) (coeff init_pose 2 3).

Definition SetGNSSPose (m : Matching) (gnss_pose : Matrix4f) : Matching :=
  let m := set_current_gnss_pose m gnss_pose in
  let m :=
    if gnss_cnt m == 0%N then SetInitPose m gnss_pose
    else if (3 < gnss_cnt m)%N then set_has_inited m true
    else m in
  set_gnss_cnt m (gnss_cnt m).+1.

Definition SetScanContextPose (m : Matching) (init_scan : CLOUD_PTR) : bool * Matching :=
  match DetectLoopClosure (read m init_scan) with
  | None => (false, m)
  | Some init_pose =>
      let m := SetInitPose m init_pose in
      let m := set_has_inited m true in
      (true, m)
  end.

Definition SetInited (m : Matching) : Matching := set_has_inited m true.

Definition GetInitPose (m : Matching) : Matrix4f := init_pose_ m.

(** [GetGlobalMap(global_map)]: [global_map] is the caller's pointer. *)
Definition GetGlobalMap (m : Matching) (global_map : CLOUD_PTR) : Matching :=
  let m := Filter global_map_filter m (global_map_ptr_ m) global_map in
  set_has_new_global_map m false.

Definition GetLocalMap (m : Matching) : CLOUD_PTR * Matching := (local_map_ptr_ m, m).

Definition GetCurrentScan (m : Matching) : CLOUD_PTR * Matching := (current_scan_ptr_ m, m).

Definition HasInited (m : Matching) : bool := has_inited_ m.

Definition HasNewGlobalMap (m : Matching) : bool := has_new_global_map_ m.

Definition HasNewLocalMap (m : Matching) : bool := has_new_local_map_ m.

(** Modelled from the spec: the default member initialisers of
    lidar_localization/matching/matching.hpp (not under src/): the state
    starts "Uninitialized", both poses "default to identity", and no
    artifact is flagged before it is produced. *)
Definition members_default (h : Mem) (g l c : CLOUD_PTR) : Matching :=
  mkMatching h g l c (SetOrigin (fzero, fzero, fzero)) [::] Identity Identity
    false false false 0 None [::] [::].

(** The constructor, run in a memory [h] that holds the clouds allocated so
    far. *)
Definition Matching_ctor (h : Mem) : Matching :=
  let: (g, h) := new_CLOUD h in
  let: (l, h) := new_CLOUD h in
  let: (c, h) := new_CLOUD h in
  let m := members_default h g l c in
  (* InitWithConfig() selects the collaborators *)
  let m := InitGlobalMap m in
  ResetLocalMap m fzero fzero fzero.


(** ** Runs: the calls a host makes, in order *)

Inductive Call : Type :=
  | CallUpdate (cloud_ptr : CLOUD_PTR)
  | CallSetGNSSPose (gnss_pose : Matrix4f)
  | CallSetScanContextPose (init_scan : CLOUD_PTR)
  | CallSetInited
  | CallGetGlobalMap (global_map : CLOUD_PTR)
  | CallGetLocalMap
  | CallGetCurrentScan
  | CallerStore (p : CLOUD_PTR) (c : CLOUD).   (* the caller fills one of its clouds *)

Definition step (m : Matching) (c : Call) : Matching :=
  match c with
  | CallUpdate cloud_ptr => (Update m cloud_ptr).1
  | CallSetGNSSPose gnss_pose => SetGNSSPose m gnss_pose
  | CallSetScanContextPose init_scan => (SetScanContextPose m init_scan).2
  | CallSetInited => SetInited m
  | CallGetGlobalMap global_map => GetGlobalMap m global_map
  | CallGetLocalMap => (GetLocalMap m).2
  | CallGetCurrentScan => (GetCurrentScan m).2
  | CallerStore p c => write m p c
  end.

Definition run (m : Matching) (cs : seq Call) : Matching := foldl step m cs.

(** The pointer a call hands over, if any. *)
Definition call_ptr (c : Call) : option CLOUD_PTR :=
  match c with
  | CallUpdate p | CallSetScanContextPose p | CallGetGlobalMap p | CallerStore p _ => Some p
  | _ => None
  end.

(** The three states of the initialisation, read off the flag and the
    counter of coarse fixes. *)
Inductive InitState : Type := Uninitialized | CoarseFixPending | Tracking.

Definition init_state (m : Matching) : InitState :=
  if has_inited_ m then Tracking
  else if gnss_cnt m == 0%N then Uninitialized
  else CoarseFixPending.

Definition rank (s : InitState) : nat :=
  match s with Uninitialized => 0 | CoarseFixPending => 1 | Tracking => 2 end.

(** What the next [Update] reads from its static locals. *)
Definition lastPose (m : Matching) : Matrix4f := last_pose (enter_statics m).
Definition predictedPose (m : Matching) : Matrix4f := predict_pose (enter_statics m).
Definition stepPose (m : Matching) : Matrix4f := step_pose (enter_statics m).

(** The translation part of a pose. *)
Definition position (P : Matrix4f) : Origin := (coeff P 0 3, coeff P 1 3, coeff P 2 3).

(** ** Memory lemmas *)

Lemma load_store h p q c : load (store h p c) q = if q == p then c else load h q.
Proof. by rewrite /load /store nth_set_nth. Qed.

Lemma load_store_same h p c : load (store h p c) p = c.
Proof. by rewrite load_store eqxx. Qed.

Lemma load_store_other h p q c : q != p -> load (store h p c) q = load h q.
Proof. by rewrite load_store => /negbTE ->. Qed.

Lemma size_store h p c : size (store h p c) = maxn p.+1 (size h).
Proof. by rewrite /store size_set_nth. Qed.

Lemma load_rcons_nil h q : load (rcons h [::]) q = load h q.
Proof.
rewrite /load nth_rcons; case: ltngtP => // [lt_hq|->]; first by rewrite nth_default // ltnW.
by rewrite nth_default.
Qed.

Lemma size_store_le h p c : (size h <= size (store h p c))%N.
Proof. by rewrite size_store leq_maxr. Qed.

(** ** Frame lemmas of the member functions *)

Lemma ResetLocalMap_has_inited m x y z : has_inited_ (ResetLocalMap m x y z) = has_inited_ m.
Proof. by []. Qed.

Lemma ResetLocalMap_gnss_cnt m x y z : gnss_cnt (ResetLocalMap m x y z) = gnss_cnt m.
Proof. by []. Qed.

Arguments edge_loop : simpl never.

Lemma edge_loopS m P e i n :
  edge_loop m P e i n.+1 =
    if fgt (fabs (fsub (coeff P i 3) (at_ e (2 * i)))) fifty
       && fgt (fabs (fsub (coeff P i 3) (at_ e (2 * i + 1)))) fifty
    then edge_loop m P e i.+1 n
    else ResetLocalMap m (coeff P 0 3) (coeff P 1 3) (coeff P 2 3).
Proof. by []. Qed.

Lemma edge_loop_has_inited m P e i n : has_inited_ (edge_loop m P e i n) = has_inited_ m.
Proof. by elim: n i => [|n IH] i //; rewrite edge_loopS; case: ifP. Qed.

Lemma edge_loop_gnss_cnt m P e i n : gnss_cnt (edge_loop m P e i n) = gnss_cnt m.
Proof. by elim: n i => [|n IH] i //; rewrite edge_loopS; case: ifP. Qed.

Lemma edge_loop_statics m P e i n : statics (edge_loop m P e i n) = statics m.
Proof. by elim: n i => [|n IH] i //; rewrite edge_loopS; case: ifP. Qed.

Lemma edge_loop_scanmatch_calls m P e i n :
  scanmatch_calls (edge_loop m P e i n) = scanmatch_calls m.
Proof. by elim: n i => [|n IH] i //; rewrite edge_loopS; case: ifP. Qed.


Arguments store : simpl never.
Arguments load : simpl never.

(** The seed handed to the registration by [Update] in state [m]. *)
Definition registration_seed (m : Matching) : Matrix4f :=
  if HasInited m then predictedPose m else current_gnss_pose_ m.

(** The body of [Update] down to the update of the predicted pose, with the
    reads from memory resolved: the object before the loop over the axes,
    and the refined pose. *)
Definition after_matching (m : Matching) (cloud_ptr : CLOUD_PTR) : Matching * Matrix4f :=
  let clean := removeNaNFromPointCloud (read m cloud_ptr) in
  let matched := ScanMatch (registration_ptr_ m) (frame_filter clean) (registration_seed m) in
  let P := matched.2 in
  let h1 := store (mem m) cloud_ptr clean in
  let h2 := store (rcons h1 [::]) (size h1) (frame_filter clean) in
  let h3 := store (rcons h2 [::]) (size h2) matched.1 in
  let h4 := store h3 (current_scan_ptr_ m) (transformPointCloud clean P) in
  (mkMatching h4 (global_map_ptr_ m) (local_map_ptr_ m) (current_scan_ptr_ m)
     (box_filter_ptr_ m) (registration_ptr_ m) (init_pose_ m) (current_gnss_pose_ m)
     (has_inited_ m) (has_new_global_map_ m) (has_new_local_map_ m) (gnss_cnt m)
     (Some (mkStatics (mul (inverse (lastPose m)) P) P (mul P (mul (inverse (lastPose m)) P))))
     (box_calls m)
     (rcons (scanmatch_calls m)
            (mkScanMatchCall (size h1) (registration_seed m) (size h2))),
   P).

Lemma lt_size_store h p c : (p < size (store h p c))%N.
Proof. by rewrite size_store leq_maxl. Qed.

Lemma Update_unfold m p :
  Update m p =
    (edge_loop (after_matching m p).1 (after_matching m p).2 (GetEdge (box_filter_ptr_ m)) 0 3,
     (after_matching m p).2).
Proof.
case: m => h g l c bx rg ip cg hi hg hl cnt st bc sc.
cbv beta iota zeta delta [Update after_matching registration_seed HasInited
  set_mem set_statics set_scanmatch_calls
  write read Filter new_CLOUD predictedPose lastPose GetEdge
  mem global_map_ptr_ local_map_ptr_ current_scan_ptr_ box_filter_ptr_ registration_ptr_
  init_pose_ current_gnss_pose_ has_inited_ has_new_global_map_ has_new_local_map_
  gnss_cnt statics box_calls scanmatch_calls fst snd].
set cl := removeNaNFromPointCloud _; set h1 := store h p cl.
have ld1 : load (rcons h1 [::]) p = cl by rewrite load_rcons_nil load_store_same.
have sz2 : size (store (rcons h1 [::]) (size h1) (frame_filter cl)) = size (rcons h1 [::]).
  by rewrite size_store size_rcons maxnn.
have ne_p : p != size (rcons h1 [::]).
  by rewrite neq_ltn size_rcons ltnS (ltnW (lt_size_store _ _ _)).
have ld2 x : load (store (rcons (store (rcons h1 [::]) (size h1) (frame_filter cl)) [::])
                  (size (store (rcons h1 [::]) (size h1) (frame_filter cl))) x) p = cl.
  rewrite sz2 load_store_other // load_rcons_nil load_store_other ?ld1 //.
  by rewrite neq_ltn lt_size_store.
by rewrite !ld1 !load_rcons_nil !load_store_same !ld2; case: hi.
Qed.

Opaque Update.

Lemma Update_state m p :
  (Update m p).1 =
    edge_loop (after_matching m p).1 (Update m p).2 (GetEdge (box_filter_ptr_ m)) 0 3.
Proof. by rewrite Update_unfold. Qed.

(** The refined pose is what the registration answers for the cleaned and
    downsampled scan, the current target and the seed. *)
Lemma Update_pose m p :
  (Update m p).2 =
    (ScanMatch (registration_ptr_ m)
               (frame_filter (removeNaNFromPointCloud (read m p)))
               (registration_seed m)).2.
Proof. by rewrite Update_unfold. Qed.

Lemma Update_has_inited m p : has_inited_ (Update m p).1 = has_inited_ m.
Proof. by rewrite Update_state edge_loop_has_inited. Qed.

Lemma Update_gnss_cnt m p : gnss_cnt (Update m p).1 = gnss_cnt m.
Proof. by rewrite Update_state edge_loop_gnss_cnt. Qed.

Lemma edge_loop_poses m P e i n :
  init_pose_ (edge_loop m P e i n) = init_pose_ m /\
  current_gnss_pose_ (edge_loop m P e i n) = current_gnss_pose_ m.
Proof. by elim: n i => [|n IH] i //; rewrite edge_loopS; case: ifP. Qed.

Lemma Update_poses m p :
  init_pose_ (Update m p).1 = init_pose_ m /\
  current_gnss_pose_ (Update m p).1 = current_gnss_pose_ m.
Proof.
rewrite Update_state.
by have [-> ->] :=
  edge_loop_poses (after_matching m p).1 (Update m p).2 (GetEdge (box_filter_ptr_ m)) 0 3.
Qed.

Lemma SetGNSSPose_gnss_cnt m g : gnss_cnt (SetGNSSPose m g) = (gnss_cnt m).+1.
Proof. by rewrite /SetGNSSPose; case: ifP => // _; case: ifP. Qed.

Lemma SetGNSSPose_has_inited m g :
  has_inited_ (SetGNSSPose m g) = has_inited_ m || (3 < gnss_cnt m)%N.
Proof.
rewrite /SetGNSSPose -[gnss_cnt (set_current_gnss_pose m g)]/(gnss_cnt m).
case: eqP => [->|_]; first by rewrite orbF.
by case: ifP => _; rewrite ?orbT ?orbF.
Qed.

Lemma SetGNSSPose_current_gnss_pose m g : current_gnss_pose_ (SetGNSSPose m g) = g.
Proof. by rewrite /SetGNSSPose; case: ifP => // _; case: ifP. Qed.

Lemma SetGNSSPose_statics m g : statics (SetGNSSPose m g) = statics m.
Proof. by rewrite /SetGNSSPose; case: ifP => // _; case: ifP. Qed.

Lemma SetGNSSPose_init_pose m g :
  init_pose_ (SetGNSSPose m g) = if gnss_cnt m == 0%N then g else init_pose_ m.
Proof.
rewrite /SetGNSSPose -[gnss_cnt (set_current_gnss_pose m g)]/(gnss_cnt m).
by case: ifP => // _; case: ifP.
Qed.

Lemma SetScanContextPose_has_inited m p :
  has_inited_ (SetScanContextPose m p).2 = has_inited_ m || (SetScanContextPose m p).1.
Proof.
by rewrite /SetScanContextPose; case: DetectLoopClosure => [P|]; rewrite ?orbT ?orbF.
Qed.

Lemma SetScanContextPose_gnss_cnt m p : gnss_cnt (SetScanContextPose m p).2 = gnss_cnt m.
Proof. by rewrite /SetScanContextPose; case: DetectLoopClosure. Qed.

Lemma Matching_ctor_has_inited h : has_inited_ (Matching_ctor h) = false.
Proof. by []. Qed.

Lemma Matching_ctor_gnss_cnt h : gnss_cnt (Matching_ctor h) = 0%N.
Proof. by []. Qed.

(** A run of coarse fixes counts them, and the flag is raised by the first
    fix that finds the counter above 3. *)
Lemma coarse_fixes_run m (fixes : seq Matrix4f) :
  gnss_cnt (foldl SetGNSSPose m fixes) = (gnss_cnt m + size fixes)%N /\
  has_inited_ (foldl SetGNSSPose m fixes)
    = has_inited_ m || (0 < size fixes)%N && (4 < gnss_cnt m + size fixes)%N.
Proof.
elim: fixes m => [|g fixes IH] m /=; first by rewrite addn0 orbF.
have [-> ->] := IH (SetGNSSPose m g).
rewrite SetGNSSPose_gnss_cnt SetGNSSPose_has_inited addSnnS; split=> //.
rewrite -orbA; congr (_ || _).
case: fixes {IH} => [|g' fixes] /=; first by rewrite orbF addn1.
case: ltnP => //= lt3; rewrite addnS ltnS; symmetry.
exact: leq_trans lt3 (leq_addr _ _).
Qed.

(** ** Initialisation by coarse fixes *)

(** C1 (amended): in a run driven only by coarse fixes, starting from the
    constructed object, [HasInited] answers true exactly when five or more
    calls of [SetGNSSPose] have been made: it is the fifth call that finds
    the counter above 3, and the first four leave the flag down. *)
Theorem coarse_fixes_tracking_after_fifth (h : Mem) (fixes : seq Matrix4f) :
  HasInited (foldl SetGNSSPose (Matching_ctor h) fixes) = (4 < size fixes)%N.
Proof.
rewrite /HasInited; have [_ ->] := coarse_fixes_run (Matching_ctor h) fixes.
by rewrite Matching_ctor_has_inited Matching_ctor_gnss_cnt add0n; case: fixes.
Qed.

(** ** Monotonicity of the initialisation state *)

Lemma step_rank m c : (rank (init_state m) <= rank (init_state (step m c)))%N.
Proof.
rewrite /init_state; case: c => [p|g|p||p|||p c]; rewrite /step.
- by rewrite Update_has_inited Update_gnss_cnt.
- rewrite SetGNSSPose_has_inited SetGNSSPose_gnss_cnt.
  by case: (has_inited_ m) => //=; case: ifP => // _; case: ifP.
- rewrite SetScanContextPose_has_inited SetScanContextPose_gnss_cnt.
  by case: (has_inited_ m) => //=; case: (SetScanContextPose m p).1 => //; case: ifP.
- rewrite -[has_inited_ (SetInited m)]/true.
  by case: (has_inited_ m) => //; case: ifP.
- by [].
- by [].
- by [].
- by [].
Qed.

Lemma rank_tracking m : (rank (init_state m) == 2%N) = has_inited_ m.
Proof. by rewrite /init_state; case: (has_inited_ m) => //; case: ifP. Qed.

(** C7: whatever the state and whatever calls follow ([SetGNSSPose],
    [SetScanContextPose], [SetInited], [Update], the getters and the
    caller's own writes), [HasInited] stays true once it is true, and the
    initialisation state never moves backwards (in particular never from
    CoarseFixPending to Uninitialized). *)
Theorem init_state_monotonic (m : Matching) (cs : seq Call) :
  (HasInited m -> HasInited (run m cs)) /\
  (rank (init_state m) <= rank (init_state (run m cs)))%N.
Proof.
have mono: (rank (init_state m) <= rank (init_state (run m cs)))%N.
  elim: cs m => [|c cs IH] m //=.
  exact: leq_trans (step_rank m c) (IH (step m c)).
split=> //; rewrite /HasInited -!rank_tracking => /eqP eq2.
by move: mono; rewrite eq2; case: (init_state (run m cs)).
Qed.

(** ** Dirty flags *)

Lemma GetGlobalMap_clears_flag m p : HasNewGlobalMap (GetGlobalMap m p) = false.
Proof. by []. Qed.

Lemma edge_loop_has_new_local_map m P e i n :
  has_new_local_map_ m -> has_new_local_map_ (edge_loop m P e i n).
Proof. by move=> hm; elim: n i => [|n IH] i //; rewrite edge_loopS; case: ifP. Qed.

Lemma step_has_new_local_map m c : has_new_local_map_ m -> has_new_local_map_ (step m c).
Proof.
case: c => [p|g|p||p|||p c] //; rewrite /step.
- by move=> hm; rewrite Update_state; apply: edge_loop_has_new_local_map.
- by rewrite /SetGNSSPose; case: ifP => // _; case: ifP.
- by rewrite /SetScanContextPose; case: DetectLoopClosure.
Qed.

(** C8, the local-map half fails on the code: [GetLocalMap] hands out the
    local map and leaves its flag as it was, so after the constructor
    (whose [ResetLocalMap] raises the flag) a read of the local map is
    followed by [HasNewLocalMap() == true]; the sibling [GetGlobalMap]
    does lower its own flag. *)
Theorem GetLocalMap_keeps_flag_raised (h : Mem) (global_map : CLOUD_PTR) :
  HasNewLocalMap (GetLocalMap (Matching_ctor h)).2 = true /\
  HasNewGlobalMap (GetGlobalMap (Matching_ctor h) global_map) = false.
Proof. by []. Qed.

(** No call ever lowers the local-map flag. *)
Lemma has_new_local_map_stuck m cs : has_new_local_map_ m -> has_new_local_map_ (run m cs).
Proof. by elim: cs m => [|c cs IH] m //= hm; apply/IH/step_has_new_local_map. Qed.

(** ** The pose predictor *)

Lemma Update_statics m p :
  statics (Update m p).1 =
    Some (mkStatics (mul (inverse (lastPose m)) (Update m p).2) (Update m p).2
                    (mul (Update m p).2 (mul (inverse (lastPose m)) (Update m p).2))).
Proof. by rewrite Update_unfold edge_loop_statics. Qed.

Lemma Update_scanmatch_calls m p :
  scanmatch_calls (Update m p).1 =
    rcons (scanmatch_calls m)
          (mkScanMatchCall (size (store (mem m) p (removeNaNFromPointCloud (read m p))))
                           (registration_seed m)
                           (size (store (mem m) p (removeNaNFromPointCloud (read m p)))).+1).
Proof.
rewrite Update_state edge_loop_scanmatch_calls /after_matching /=.
by rewrite [size (store (rcons _ _) _ _)]size_store size_rcons maxnn.
Qed.

Lemma Update_predictor_eqs m p :
  [/\ stepPose (Update m p).1 = mul (inverse (lastPose m)) (Update m p).2,
      predictedPose (Update m p).1
        = mul (Update m p).2 (mul (inverse (lastPose m)) (Update m p).2)
    & lastPose (Update m p).1 = (Update m p).2].
Proof.
by rewrite /stepPose /predictedPose /lastPose {1 3 5}/enter_statics Update_statics.
Qed.

(** C5: an [Update] that yields the refined pose [P] leaves the predictor
    with [predictedPose' = P * (inverse(lastPose) * P)] and [lastPose' = P],
    [lastPose] being the predictor's value before the call. *)
Theorem Update_predictor (m : Matching) (cloud_ptr : CLOUD_PTR) :
  let P := (Update m cloud_ptr).2 in
  let m' := (Update m cloud_ptr).1 in
  [/\ stepPose m' = mul (inverse (lastPose m)) P,
      predictedPose m' = mul P (mul (inverse (lastPose m)) P)
    & lastPose m' = P].
Proof. exact: Update_predictor_eqs. Qed.

Lemma coarse_fixes_poses m (fixes : seq Matrix4f) :
  [/\ current_gnss_pose_ (foldl SetGNSSPose m fixes) = last (current_gnss_pose_ m) fixes,
      init_pose_ (foldl SetGNSSPose m fixes)
        = (if gnss_cnt m == 0%N then head (init_pose_ m) fixes else init_pose_ m)
    & statics (foldl SetGNSSPose m fixes) = statics m].
Proof.
elim: fixes m => [|g fixes IH] m /=; first by rewrite if_same.
have [-> -> ->] := IH (SetGNSSPose m g).
rewrite SetGNSSPose_current_gnss_pose SetGNSSPose_gnss_cnt SetGNSSPose_init_pose.
by rewrite SetGNSSPose_statics.
Qed.

(** C4 (amended): the seed given to the registration by an [Update] is the
    most recent coarse-fix pose while [HasInited] is false, and the
    predictor's [predictedPose] once it is true; after coarse fixes alone
    the most recent coarse-fix pose is the last one submitted (identity if
    none). [lastPose] is not reseeded with it: before the first [Update] it
    is the committed initial pose, which after coarse fixes alone is the
    first one submitted (identity if none), and after an [Update] it is the
    pose that [Update] refined. *)
Theorem Update_seed_and_lastPose (m : Matching) (cloud_ptr : CLOUD_PTR)
    (h : Mem) (fixes : seq Matrix4f) :
  let m0 := foldl SetGNSSPose (Matching_ctor h) fixes in
  [/\ [seq call_seed c | c <- scanmatch_calls (Update m cloud_ptr).1]
        = rcons [seq call_seed c | c <- scanmatch_calls m]
                (if HasInited m then predictedPose m else current_gnss_pose_ m),
      current_gnss_pose_ m0 = last Identity fixes,
      lastPose m0 = head Identity fixes
    & lastPose (Update m cloud_ptr).1 = (Update m cloud_ptr).2].
Proof.
split; first by rewrite Update_scanmatch_calls map_rcons.
- by have [-> _ _] := coarse_fixes_poses (Matching_ctor h) fixes.
- rewrite /lastPose /enter_statics.
  by have [_ -> ->] := coarse_fixes_poses (Matching_ctor h) fixes.
- by have [] := Update_predictor_eqs m cloud_ptr.
Qed.

(** The predictor under zero motion, for a pose on which the two products
    of the update come out exactly. *)
Lemma zero_motion_step m p :
  (Update m p).2 = lastPose m ->
  mul (inverse (lastPose m)) (lastPose m) = Identity ->
  mul (lastPose m) Identity = lastPose m ->
  [/\ stepPose (Update m p).1 = Identity,
      predictedPose (Update m p).1 = lastPose m
    & lastPose (Update m p).1 = lastPose m].
Proof.
move=> eqP invP mulP; have [-> -> ->] := Update_predictor_eqs m p.
by rewrite eqP invP mulP.
Qed.

Lemma ResetLocalMap_box_calls m x y z :
  box_calls (ResetLocalMap m x y z)
    = rcons (box_calls m) (mkBoxCall (x, y, z) (read m (global_map_ptr_ m))).
Proof. by []. Qed.

(** ** Initialisation by place recognition *)

(** C6: when the scan context proposes a pose, [SetScanContextPose] commits
    it as the initial pose, recentres the local map on it (one call of the
    box filter at the pose's position, on the global map; the cropped cloud
    becomes the local map and the registration target), raises
    [has_inited_] and answers true; when it proposes none, the answer is
    false and the object is exactly as before. *)
Theorem place_recognition (m : Matching) (init_scan : CLOUD_PTR) :
  let r := SetScanContextPose m init_scan in
  match DetectLoopClosure (read m init_scan) with
  | Some pose =>
      let local_map :=
        box_crop (CalculateEdge (position pose)) (read m (global_map_ptr_ m)) in
      [/\ r.1 = true, GetInitPose r.2 = pose & HasInited r.2 = true] /\
      [/\ box_calls r.2
            = rcons (box_calls m) (mkBoxCall (position pose) (read m (global_map_ptr_ m))),
          box_filter_ptr_ r.2 = SetOrigin (position pose),
          read r.2 (local_map_ptr_ r.2) = local_map,
          registration_ptr_ r.2 = local_map
        & HasNewLocalMap r.2 = true]
  | None => r = (false, m)
  end.
Proof.
rewrite /SetScanContextPose; case: DetectLoopClosure => [pose|] //.
split; split=> //; last exact: load_store_same.
exact: load_store_same.
Qed.

(** ** The global map *)

(** The global map sits at the allocated address [g] with contents [G], and
    every call of the box filter so far was given [G]. *)
Definition global_map_inv (g : CLOUD_PTR) (G : CLOUD) (m : Matching) : Prop :=
  [/\ global_map_ptr_ m = g, (g < size (mem m))%N, read m g = G
    & [seq call_input c | c <- box_calls m] = nseq (size (box_calls m)) G].

Lemma global_map_inv_frame g G m m' :
  global_map_ptr_ m' = global_map_ptr_ m -> box_calls m' = box_calls m ->
  (size (mem m) <= size (mem m'))%N -> load (mem m') g = load (mem m) g ->
  global_map_inv g G m -> global_map_inv g G m'.
Proof.
move=> eg ec le_sz eq_ld [eg0 lt_g rd calls]; split; rewrite ?ec //.
- by rewrite eg.
- exact: leq_trans lt_g le_sz.
- by rewrite /read eq_ld.
Qed.

Lemma write_inv g G m q c : q != g -> global_map_inv g G m -> global_map_inv g G (write m q c).
Proof.
move=> ne_q; apply: global_map_inv_frame => //; first exact: size_store_le.
by rewrite [mem _]/= load_store_other // eq_sym.
Qed.

Lemma ResetLocalMap_mem m x y z :
  mem (ResetLocalMap m x y z)
    = store (mem m) (local_map_ptr_ m)
            (box_crop (CalculateEdge (x, y, z)) (read m (global_map_ptr_ m))).
Proof. by []. Qed.

Lemma ResetLocalMap_inv g G m x y z :
  local_map_ptr_ m != g -> global_map_inv g G m -> global_map_inv g G (ResetLocalMap m x y z).
Proof.
move=> ne_l [eg lt_g rd calls]; split=> //.
- by rewrite ResetLocalMap_mem (leq_trans lt_g) // size_store_le.
- by rewrite /read ResetLocalMap_mem load_store_other // eq_sym.
- by rewrite ResetLocalMap_box_calls map_rcons size_rcons -cats1 calls -addn1 nseqD /= eg rd.
Qed.

Lemma edge_loop_ptrs m P e i n :
  [/\ global_map_ptr_ (edge_loop m P e i n) = global_map_ptr_ m,
      local_map_ptr_ (edge_loop m P e i n) = local_map_ptr_ m
    & current_scan_ptr_ (edge_loop m P e i n) = current_scan_ptr_ m].
Proof. by elim: n i => [|n IH] i //; rewrite edge_loopS; case: ifP. Qed.

Lemma edge_loop_inv g G m P e i n :
  local_map_ptr_ m != g -> global_map_inv g G m -> global_map_inv g G (edge_loop m P e i n).
Proof.
move=> ne_l inv; elim: n i => [|n IH] i //; rewrite edge_loopS.
by case: ifP => // _; apply: ResetLocalMap_inv.
Qed.

Lemma size_store_rcons_le h p c : (size h <= size (store (rcons h [::]) p c))%N.
Proof. by apply: leq_trans (size_store_le _ _ _); rewrite size_rcons. Qed.

Lemma size_mem_after_matching m p : (size (mem m) <= size (mem (after_matching m p).1))%N.
Proof.
rewrite /after_matching /=.
apply: leq_trans (size_store_le _ _ _).
do 2![apply: leq_trans (size_store_rcons_le _ _ _)].
exact: size_store_le.
Qed.

(** Outside the caller's cloud, the current scan and the two clouds it
    allocates, [Update] leaves memory as it was before the loop. *)
Lemma after_matching_load m p q :
  (q < size (mem m))%N -> q != p -> q != current_scan_ptr_ m ->
  load (mem (after_matching m p).1) q = load (mem m) q.
Proof.
move=> lt_q ne_p ne_c; rewrite /after_matching /=.
set h1 := store (mem m) p _; set h2 := store (rcons h1 [::]) (size h1) _.
have lt1 : (q < size h1)%N by exact: leq_trans lt_q (size_store_le _ _ _).
have lt2 : (q < size h2)%N by exact: leq_trans lt1 (size_store_rcons_le _ _ _).
have ne1 : q != size h1 by rewrite neq_ltn lt1.
have ne2 : q != size h2 by rewrite neq_ltn lt2.
rewrite (load_store_other _ _ ne_c) (load_store_other _ _ ne2) load_rcons_nil.
by rewrite (load_store_other _ _ ne1) load_rcons_nil (load_store_other _ _ ne_p).
Qed.

Lemma after_matching_inv g G m p :
  p != g -> current_scan_ptr_ m != g ->
  global_map_inv g G m -> global_map_inv g G (after_matching m p).1.
Proof.
move=> ne_p ne_c inv; have [_ lt_g _ _] := inv.
apply: global_map_inv_frame inv => //; first exact: size_mem_after_matching.
by apply: after_matching_load; rewrite // eq_sym.
Qed.

Lemma Update_ptrs m p :
  [/\ global_map_ptr_ (Update m p).1 = global_map_ptr_ m,
      local_map_ptr_ (Update m p).1 = local_map_ptr_ m
    & current_scan_ptr_ (Update m p).1 = current_scan_ptr_ m].
Proof.
rewrite Update_state.
by have [-> -> ->] :=
  edge_loop_ptrs (after_matching m p).1 (Update m p).2 (GetEdge (box_filter_ptr_ m)) 0 3.
Qed.

(** The three clouds of the object are allocated, at distinct addresses. *)
Definition wf (m : Matching) : bool :=
  [&& (global_map_ptr_ m < size (mem m))%N, (local_map_ptr_ m < size (mem m))%N,
      (current_scan_ptr_ m < size (mem m))%N
    & uniq [:: global_map_ptr_ m; local_map_ptr_ m; current_scan_ptr_ m]].

Lemma wf_frame m m' :
  global_map_ptr_ m' = global_map_ptr_ m -> local_map_ptr_ m' = local_map_ptr_ m ->
  current_scan_ptr_ m' = current_scan_ptr_ m -> (size (mem m) <= size (mem m'))%N ->
  wf m -> wf m'.
Proof.
rewrite /wf => -> -> -> le_sz /and4P [lg ll lc ->]; rewrite andbT.
by rewrite !(leq_trans _ le_sz).
Qed.

Lemma size_mem_edge_loop m P e i n : (size (mem m) <= size (mem (edge_loop m P e i n)))%N.
Proof.
elim: n i => [|n IH] i //; rewrite edge_loopS; case: ifP => // _.
by rewrite ResetLocalMap_mem size_store_le.
Qed.

Lemma size_mem_step m c : (size (mem m) <= size (mem (step m c)))%N.
Proof.
case: c => [p|g|p||p|||p c] //; rewrite /step; try exact: size_store_le.
- rewrite Update_state.
  exact: leq_trans (size_mem_after_matching m p) (size_mem_edge_loop _ _ _ _ _).
- rewrite /SetGNSSPose; case: ifP => _; last by case: ifP.
  by rewrite [mem _]/= size_store_le.
- rewrite /SetScanContextPose; case: DetectLoopClosure => [P|] //.
  by rewrite [mem _]/= size_store_le.
Qed.

Lemma step_ptrs m c :
  [/\ global_map_ptr_ (step m c) = global_map_ptr_ m,
      local_map_ptr_ (step m c) = local_map_ptr_ m
    & current_scan_ptr_ (step m c) = current_scan_ptr_ m].
Proof.
case: c => [p|g|p||p|||p c] //; rewrite /step; first exact: Update_ptrs.
- by rewrite /SetGNSSPose; case: ifP => // _; case: ifP.
- by rewrite /SetScanContextPose; case: DetectLoopClosure.
Qed.

Lemma wf_step m c : wf m -> wf (step m c).
Proof. by have [eg el ec] := step_ptrs m c; apply: wf_frame => //; exact: size_mem_step. Qed.

(** The constructed object, with the reads from memory resolved. *)
Lemma Matching_ctorE h :
  let g := size h in
  let G := local_map_filter map_file in
  let L := box_crop (CalculateEdge (fzero, fzero, fzero)) G in
  Matching_ctor h =
    mkMatching
      (store (store (store (rcons (rcons (rcons h [::]) [::]) [::]) g map_file) g G) g.+1 L)
      g g.+1 g.+2 (SetOrigin (fzero, fzero, fzero)) L Identity Identity false true true 0 None
      [:: mkBoxCall (fzero, fzero, fzero) G] [::].
Proof.
cbv beta iota zeta delta [Matching_ctor members_default InitGlobalMap ResetLocalMap
  BoxFilter_Filter SetInputTarget Filter new_CLOUD write read
  set_mem set_box_filter set_registration set_has_new_global_map set_has_new_local_map
  set_box_calls
  mem global_map_ptr_ local_map_ptr_ current_scan_ptr_ box_filter_ptr_ registration_ptr_
  init_pose_ current_gnss_pose_ has_inited_ has_new_global_map_ has_new_local_map_
  gnss_cnt statics box_calls scanmatch_calls edge_ SetOrigin].
by rewrite !size_rcons !load_store_same.
Qed.

Lemma wf_ctor h : wf (Matching_ctor h).
Proof.
rewrite Matching_ctorE /wf /= !size_store !size_rcons !inE.
rewrite !leq_max !ltnS !leqnn !leqnSn !orbT /=.
by rewrite negb_or !neq_ltn !ltnS leqnn leqnSn.
Qed.

Lemma wf_run m cs : wf m -> wf (run m cs).
Proof. by rewrite /run; elim: cs m => [|c cs IH] m wfm //=; exact/IH/wf_step. Qed.

Lemma step_inv g G m c :
  call_ptr c != Some g -> wf m -> global_map_inv g G m -> global_map_inv g G (step m c).
Proof.
move=> ne_c /and4P [_ _ _ /= /and3P []]; rewrite !inE negb_or => /andP [ne_l ne_s] _ _ inv.
have [eg _ _ _] := inv; rewrite eg 2![g == _]eq_sym in ne_l ne_s.
case: c ne_c => [p|P|p||p|||p c] //; rewrite /step /call_ptr => ne_c.
- rewrite Update_state; apply: edge_loop_inv; rewrite //.
  exact: after_matching_inv.
- rewrite /SetGNSSPose; case: ifP => _; last by case: ifP.
  exact: (@ResetLocalMap_inv g G (set_init_pose (set_current_gnss_pose m P) P)).
- rewrite /SetScanContextPose; case: DetectLoopClosure => [P|] //.
  exact: (@ResetLocalMap_inv g G (set_init_pose m P)).
- by apply: (@write_inv g G m p) inv.
- by apply: (@write_inv g G m p c) inv.
Qed.

Lemma run_inv g G m cs :
  all (fun c => call_ptr c != Some g) cs -> wf m ->
  global_map_inv g G m -> global_map_inv g G (run m cs).
Proof.
rewrite /run; elim: cs m => [|c cs IH] m //= /andP [okc oks] wfm inv.
by apply: IH oks _ _; [exact: wf_step | exact: step_inv].
Qed.

Lemma ctor_inv h : global_map_inv (size h) (local_map_filter map_file) (Matching_ctor h).
Proof.
rewrite Matching_ctorE; split=> //.
- by rewrite /= !size_store !size_rcons !leq_max !ltnS leqnn !orbT.
- rewrite /read /= load_store_other ?load_store_same //.
  by rewrite neq_ltn leqnn.
Qed.

(** C2 (amended): the constructor loads the map and at once replaces it, in
    place, by its image under the local-map filter; from then on, along any
    run whose calls are not handed the (private) address of the global map,
    the global map keeps exactly that filtered contents, every call of the
    box filter made by [ResetLocalMap] receives it, and [GetGlobalMap]
    writes the global-map filter's image of it into the caller's cloud, a
    copy that no recentring ever reads. *)
Theorem global_map_fixed_after_startup (h : Mem) (cs : seq Call) (out : CLOUD_PTR) :
  all (fun c => call_ptr c != Some (size h)) cs ->
  let G := local_map_filter map_file in
  let m := run (Matching_ctor h) cs in
  [/\ read (Matching_ctor h) (global_map_ptr_ (Matching_ctor h)) = G,
      read m (global_map_ptr_ m) = G,
      [seq call_input c | c <- box_calls m] = nseq (size (box_calls m)) G
    & read (GetGlobalMap m out) out = global_map_filter G].
Proof.
move=> ok G m.
have [eg0 _ rd0 _] := ctor_inv h.
have [eg _ rd calls] : global_map_inv (size h) G m.
  by apply: run_inv ok (wf_ctor h) (ctor_inv h).
split=> //; rewrite ?eg0 ?eg //.
by rewrite /GetGlobalMap /Filter /read [mem _]/= load_store_same eg -/(read m (size h)) rd.
Qed.

(** ** The scan handed to [Update] *)

Lemma edge_loop_read m P e i n q :
  q != local_map_ptr_ m -> read (edge_loop m P e i n) q = read m q.
Proof.
move=> ne_q; elim: n i => [|n IH] i //; rewrite edge_loopS; case: ifP => // _.
by rewrite /read ResetLocalMap_mem load_store_other.
Qed.

Lemma removeNaN_finite c : all isFinitePoint (removeNaNFromPointCloud c).
Proof. exact: filter_all. Qed.

(** C10 (amended): [Update] cleans the caller's cloud in place. For a scan
    that is not one of the clouds the object hands out (local map, current
    scan), and an object whose three clouds are distinct and allocated,
    after the call the caller's cloud holds exactly the finite points of
    the scan, in order; the current scan of the object is the transform of
    that cleaned cloud by the refined pose; the downsampled scan and the
    registration result are two clouds allocated by the call, at addresses
    unused before it. *)
Theorem Update_cleans_scan_in_place (m : Matching) (cloud_ptr : CLOUD_PTR) :
  wf m -> cloud_ptr \notin [:: local_map_ptr_ m; current_scan_ptr_ m] ->
  let m' := (Update m cloud_ptr).1 in
  let P := (Update m cloud_ptr).2 in
  let clean := [seq p <- read m cloud_ptr | isFinitePoint p] in
  [/\ read m' cloud_ptr = clean,
      read m' (current_scan_ptr_ m') = transformPointCloud clean P
    & exists filtered result : CLOUD_PTR,
        [/\ scanmatch_calls m'
              = rcons (scanmatch_calls m)
                      (mkScanMatchCall filtered (registration_seed m) result),
            (size (mem m) <= filtered < result)%N,
            read m' filtered = frame_filter clean
          & read m' result
              = (ScanMatch (registration_ptr_ m) (frame_filter clean) (registration_seed m)).1]].
Proof.
move=> /and4P [_ lt_l lt_c uq]; rewrite !inE negb_or => /andP [ne_pl ne_pc] m' P clean.
have ne_lc : local_map_ptr_ m != current_scan_ptr_ m.
  by move: uq; rewrite /= !inE => /and3P [_ ? _].
have [_ el ec] := Update_ptrs m cloud_ptr.
have eP : P = (after_matching m cloud_ptr).2 by rewrite /P Update_unfold.
set h1 := store (mem m) cloud_ptr clean.
set h2 := store (rcons h1 [::]) (size h1) (frame_filter clean).
set res := (ScanMatch (registration_ptr_ m) (frame_filter clean) (registration_seed m)).1.
set h3 := store (rcons h2 [::]) (size h2) res.
have memE : mem (after_matching m cloud_ptr).1
              = store h3 (current_scan_ptr_ m) (transformPointCloud clean P).
  by rewrite eP.
have sz1 : (size (mem m) <= size h1)%N by exact: size_store_le.
have sz2 : size h2 = (size h1).+1 by rewrite size_store size_rcons maxnn.
have lt_p1 : (cloud_ptr < size h1)%N by exact: lt_size_store.
have ne_f q : (q < size h1)%N -> q != size h1 by move=> lt_q; rewrite neq_ltn lt_q.
have ne_r q : (q < size h1)%N -> q != size h2.
  by move=> lt_q; rewrite neq_ltn sz2 ltnS (ltnW lt_q).
have ne_fr : size h1 != size h2 by rewrite sz2 neq_ltn ltnSn.
have lt_l1 := leq_trans lt_l sz1; have lt_c1 := leq_trans lt_c sz1.
have rd q : q != local_map_ptr_ m ->
    read m' q = load (store h3 (current_scan_ptr_ m) (transformPointCloud clean P)) q.
  by move=> ne_q; rewrite /m' Update_state edge_loop_read // /read memE.
have ne_fl : size h1 != local_map_ptr_ m by rewrite eq_sym ne_f.
have ne_rl : size h2 != local_map_ptr_ m by rewrite eq_sym ne_r.
have ne_fc : size h1 != current_scan_ptr_ m by rewrite eq_sym ne_f.
have ne_rc : size h2 != current_scan_ptr_ m by rewrite eq_sym ne_r.
have ne_cl : current_scan_ptr_ m != local_map_ptr_ m by rewrite eq_sym.
split.
- rewrite (rd _ ne_pl) (load_store_other _ _ ne_pc) (load_store_other _ _ (ne_r _ lt_p1)).
  by rewrite load_rcons_nil (load_store_other _ _ (ne_f _ lt_p1)) load_rcons_nil load_store_same.
- by rewrite /m' ec (rd _ ne_cl) load_store_same.
- exists (size h1), (size h2); split.
  + by rewrite /m' Update_state edge_loop_scanmatch_calls.
  + by rewrite sz1 sz2 ltnSn.
  + rewrite (rd _ ne_fl) (load_store_other _ _ ne_fc) (load_store_other _ _ ne_fr).
    by rewrite load_rcons_nil load_store_same.
  + by rewrite (rd _ ne_rl) (load_store_other _ _ ne_rc) load_store_same.
Qed.

(** ** Further properties of the member functions *)

Lemma edge_loop_has_new_global_map m P e i n :
  has_new_global_map_ (edge_loop m P e i n) = has_new_global_map_ m.
Proof. by elim: n i => [|n IH] i //; rewrite edge_loopS; case: ifP. Qed.

(** [Update] touches neither the initialisation (flag, counter of coarse
    fixes, committed initial pose, latest coarse fix) nor the global-map
    flag nor the addresses of the three clouds of the object. *)
Theorem Update_frame (m : Matching) (cloud_ptr : CLOUD_PTR) :
  let m' := (Update m cloud_ptr).1 in
  [/\ HasInited m' = HasInited m, gnss_cnt m' = gnss_cnt m,
      GetInitPose m' = GetInitPose m, current_gnss_pose_ m' = current_gnss_pose_ m
    & HasNewGlobalMap m' = HasNewGlobalMap m] /\
  [/\ global_map_ptr_ m' = global_map_ptr_ m, local_map_ptr_ m' = local_map_ptr_ m
    & current_scan_ptr_ m' = current_scan_ptr_ m].
Proof.
move=> m'; split; last exact: Update_ptrs.
have [ip cg] := Update_poses m cloud_ptr.
split=> //; rewrite /m' /HasInited ?Update_has_inited ?Update_gnss_cnt //.
by rewrite /HasNewGlobalMap Update_state edge_loop_has_new_global_map.
Qed.

(** The only ways into tracking: [SetInited], a coarse fix that finds the
    counter above 3, or a scan the scan context recognises. *)
Theorem tracking_entry (m : Matching) (c : Call) :
  HasInited m = false -> HasInited (step m c) ->
  match c with
  | CallSetInited => True
  | CallSetGNSSPose _ => (3 < gnss_cnt m)%N
  | CallSetScanContextPose init_scan => DetectLoopClosure (read m init_scan) <> None
  | _ => False
  end.
Proof.
rewrite /HasInited => ni; case: c => [p|g|p||p|||p c] //; rewrite /step.
- by rewrite Update_has_inited ni.
- by rewrite SetGNSSPose_has_inited ni.
- by rewrite /SetScanContextPose; case: DetectLoopClosure => [P|] //=; rewrite ni.
- by rewrite -[has_inited_ _]/(has_inited_ m) ni.
- by rewrite ni.
- by rewrite ni.
- by rewrite -[has_inited_ _]/(has_inited_ m) ni.
Qed.

(** ** Dirty flag of the global map *)

Definition is_GetGlobalMap (c : Call) : bool :=
  if c is CallGetGlobalMap _ then true else false.

Lemma step_has_new_global_map m c :
  has_new_global_map_ (step m c) = has_new_global_map_ m && ~~ is_GetGlobalMap c.
Proof.
case: c => [p|g|p||p|||p c]; rewrite /step /is_GetGlobalMap ?andbT ?andbF //.
- by rewrite Update_state edge_loop_has_new_global_map.
- by rewrite /SetGNSSPose; case: ifP => // _; case: ifP.
- by rewrite /SetScanContextPose; case: DetectLoopClosure.
Qed.

(** The global-map flag is raised by the constructor and lowered for good
    by the first [GetGlobalMap]: after a run it is up exactly when the run
    holds no [GetGlobalMap]. *)
Theorem global_map_flag_until_first_read (h : Mem) (cs : seq Call) :
  HasNewGlobalMap (run (Matching_ctor h) cs) = ~~ has is_GetGlobalMap cs.
Proof.
rewrite /HasNewGlobalMap /run -[RHS]andTb -[true]/(has_new_global_map_ (Matching_ctor h)).
elim: cs (Matching_ctor h) => [|c cs IH] m /=; first by rewrite andbT.
by rewrite IH step_has_new_global_map negb_or andbA.
Qed.

(** The local-map flag is never lowered: it is up in every state reached
    from the constructor. *)
Theorem local_map_flag_always_up (h : Mem) (cs : seq Call) :
  HasNewLocalMap (run (Matching_ctor h) cs) = true.
Proof. exact: (@has_new_local_map_stuck (Matching_ctor h) cs). Qed.

(** ** Coarse fixes after the first *)

Lemma SetGNSSPose_later m g :
  gnss_cnt m != 0%N ->
  [/\ box_calls (SetGNSSPose m g) = box_calls m,
      box_filter_ptr_ (SetGNSSPose m g) = box_filter_ptr_ m,
      init_pose_ (SetGNSSPose m g) = init_pose_ m,
      registration_ptr_ (SetGNSSPose m g) = registration_ptr_ m
    & mem (SetGNSSPose m g) = mem m].
Proof.
rewrite /SetGNSSPose -[gnss_cnt (set_current_gnss_pose m g)]/(gnss_cnt m).
by move/negbTE => ->; case: ifP.
Qed.

Lemma coarse_fixes_later (fixes : seq Matrix4f) m :
  gnss_cnt m != 0%N ->
  [/\ box_calls (foldl SetGNSSPose m fixes) = box_calls m,
      box_filter_ptr_ (foldl SetGNSSPose m fixes) = box_filter_ptr_ m,
      init_pose_ (foldl SetGNSSPose m fixes) = init_pose_ m,
      registration_ptr_ (foldl SetGNSSPose m fixes) = registration_ptr_ m
    & mem (foldl SetGNSSPose m fixes) = mem m].
Proof.
elim: fixes m => [|g fixes IH] m nz //=.
have [|-> -> -> -> ->] := IH (SetGNSSPose m g); first by rewrite SetGNSSPose_gnss_cnt.
exact: SetGNSSPose_later.
Qed.

(** Of a stream of coarse fixes only the first is committed: it becomes the
    initial pose and the centre of the local map (the second and last call
    of the box filter, after the constructor's at the origin); the later
    ones only replace the latest coarse fix. *)
Theorem first_coarse_fix_commits (h : Mem) (g : Matrix4f) (fixes : seq Matrix4f) :
  let m := foldl SetGNSSPose (Matching_ctor h) (g :: fixes) in
  [/\ GetInitPose m = g,
      box_filter_ptr_ m = SetOrigin (position g),
      [seq call_origin c | c <- box_calls m] = [:: (fzero, fzero, fzero); position g]
    & current_gnss_pose_ m = last g fixes].
Proof.
rewrite [foldl _ _ _]/=; set m1 := SetGNSSPose _ g.
have nz : gnss_cnt m1 != 0%N by rewrite /m1 SetGNSSPose_gnss_cnt.
have [bc bf ip _ _] := coarse_fixes_later fixes nz.
have [cg _ _] := coarse_fixes_poses m1 fixes.
by rewrite /GetInitPose ip bf bc cg /m1 SetGNSSPose_current_gnss_pose; split.
Qed.

(** Once tracking, a further coarse fix has no effect on the pose the next
    [Update] refines: the registration gets the same target, source and
    seed. *)
Theorem coarse_fix_ignored_when_tracking (m : Matching) (g : Matrix4f) (cloud_ptr : CLOUD_PTR) :
  HasInited m -> gnss_cnt m != 0%N ->
  (Update (SetGNSSPose m g) cloud_ptr).2 = (Update m cloud_ptr).2.
Proof.
rewrite /HasInited => hi nz; rewrite !Update_pose /registration_seed /HasInited.
have [_ _ ip -> mm] := SetGNSSPose_later g nz.
rewrite SetGNSSPose_has_inited hi /= /read mm /predictedPose /enter_statics.
by rewrite SetGNSSPose_statics ip.
Qed.

(** ** Place recognition and the predictor *)

(** After a recognised scan the next [Update] is seeded with the proposed
    pose only if no [Update] has run before; otherwise the static
    [predict_pose] of the earlier updates is used and the proposal is not. *)
Theorem place_recognition_seed (m : Matching) (init_scan cloud_ptr : CLOUD_PTR)
    (pose : Matrix4f) :
  DetectLoopClosure (read m init_scan) = Some pose ->
  let m1 := (SetScanContextPose m init_scan).2 in
  [seq call_seed c | c <- scanmatch_calls (Update m1 cloud_ptr).1]
    = rcons [seq call_seed c | c <- scanmatch_calls m]
            (if statics m is Some s then predict_pose s else pose).
Proof.
move=> found m1; rewrite Update_scanmatch_calls map_rcons /m1 /SetScanContextPose found.
by rewrite /registration_seed /predictedPose /enter_statics /=; case: (statics m).
Qed.

(** ** The first update *)

Lemma Matching_ctor_read h p : (p < size h)%N -> read (Matching_ctor h) p = load h p.
Proof.
move=> lt_p; rewrite Matching_ctorE /read /=.
have ne0 : p != size h by rewrite neq_ltn lt_p.
have ne1 : p != (size h).+1 by rewrite neq_ltn ltnS (ltnW lt_p).
by rewrite (load_store_other _ _ ne1) !(load_store_other _ _ ne0) !load_rcons_nil.
Qed.

(** An [Update] right after construction, before any initialisation, still
    yields a pose: the registration's answer for the identity seed, against
    the window of the filtered map around the origin. *)
Theorem Update_before_initialisation (h : Mem) (cloud_ptr : CLOUD_PTR) :
  (cloud_ptr < size h)%N ->
  (Update (Matching_ctor h) cloud_ptr).2 =
    (ScanMatch (box_crop (CalculateEdge (fzero, fzero, fzero)) (local_map_filter map_file))
               (frame_filter (removeNaNFromPointCloud (load h cloud_ptr)))
               Identity).2.
Proof.
move=> lt_p; rewrite Update_pose Matching_ctor_read //.
by rewrite Matching_ctorE.
Qed.

(** ** Reading the global map *)

Lemma store_store h p c c' : store (store h p c) p c' = store h p c'.
Proof. by rewrite /store set_set_nth eqxx. Qed.

(** [GetGlobalMap] writes the global-map filter's image of the global map
    into the caller's cloud and nothing else; asking again changes nothing. *)
Theorem GetGlobalMap_copy (m : Matching) (out q : CLOUD_PTR) :
  out != global_map_ptr_ m -> q != out ->
  let m' := GetGlobalMap m out in
  [/\ read m' out = global_map_filter (read m (global_map_ptr_ m)),
      read m' q = read m q
    & GetGlobalMap m' out = m'].
Proof.
move=> ne_g ne_q m'; split.
- by rewrite /m' /GetGlobalMap /Filter /read [mem _]/= load_store_same.
- by rewrite /m' /GetGlobalMap /Filter /read [mem _]/= load_store_other.
- rewrite /m' /GetGlobalMap /Filter /write /read /set_has_new_global_map /set_mem /=.
  by rewrite store_store load_store_other // eq_sym.
Qed.

(** ** The local map is the window around the box filter's origin *)

(** The edges are those of the current origin, the registration target is
    the crop of [G] at these edges, and the local map holds the same cloud. *)
Definition window_inv (G : CLOUD) (m : Matching) : Prop :=
  [/\ edge_ (box_filter_ptr_ m) = CalculateEdge (origin_ (box_filter_ptr_ m)),
      registration_ptr_ m = box_crop (edge_ (box_filter_ptr_ m)) G
    & read m (local_map_ptr_ m) = registration_ptr_ m].

Lemma window_inv_frame G m m' :
  box_filter_ptr_ m' = box_filter_ptr_ m -> registration_ptr_ m' = registration_ptr_ m ->
  read m' (local_map_ptr_ m') = read m (local_map_ptr_ m) ->
  window_inv G m -> window_inv G m'.
Proof. by move=> eb er el [e1 e2 e3]; split; rewrite ?eb ?er ?el. Qed.

Lemma ResetLocalMap_registration m x y z :
  registration_ptr_ (ResetLocalMap m x y z)
    = box_crop (CalculateEdge (x, y, z)) (read m (global_map_ptr_ m)).
Proof. exact: load_store_same. Qed.

Lemma ResetLocalMap_local_map m x y z :
  read (ResetLocalMap m x y z) (local_map_ptr_ m)
    = box_crop (CalculateEdge (x, y, z)) (read m (global_map_ptr_ m)).
Proof. exact: load_store_same. Qed.

Lemma ResetLocalMap_window G m x y z :
  read m (global_map_ptr_ m) = G -> window_inv G (ResetLocalMap m x y z).
Proof.
by move=> rd; split=> //; rewrite ResetLocalMap_registration rd.
Qed.

Lemma edge_loop_window G m P e i n :
  read m (global_map_ptr_ m) = G -> window_inv G m -> window_inv G (edge_loop m P e i n).
Proof.
move=> rd inv; elim: n i => [|n IH] i //; rewrite edge_loopS.
by case: ifP => // _; apply: ResetLocalMap_window.
Qed.

Lemma step_window g G m c :
  call_ptr c \notin [:: Some g; Some (local_map_ptr_ m)] -> wf m ->
  global_map_inv g G m -> window_inv G m -> window_inv G (step m c).
Proof.
rewrite !inE negb_or => /andP [ne_g ne_l] wfm ginv winv.
have /and4P [lt_g lt_l _ /= /and3P []] := wfm.
rewrite !inE negb_or => /andP [ne_gl ne_gc] ne_lc _.
have [eg _ rd _] := ginv; rewrite -eg in rd.
case: c ne_g ne_l => [p|P|p||p|||p c] //; rewrite /step /call_ptr => ne_g ne_l.
- have ne_pl : local_map_ptr_ m != p by apply: contra ne_l => /eqP ->.
  have ne_pg : global_map_ptr_ m != p by rewrite eg; apply: contra ne_g => /eqP ->.
  rewrite Update_state; apply: edge_loop_window.
  + by rewrite -[global_map_ptr_ _]/(global_map_ptr_ m) /read after_matching_load.
  + apply: window_inv_frame winv => //.
    by rewrite -[local_map_ptr_ _]/(local_map_ptr_ m) /read after_matching_load.
- rewrite /SetGNSSPose -[gnss_cnt (set_current_gnss_pose m P)]/(gnss_cnt m).
  case: ifP => _; first exact: (@ResetLocalMap_window G (set_init_pose _ P)).
  by case: ifP.
- rewrite /SetScanContextPose; case: DetectLoopClosure => [P|] //.
  exact: (@ResetLocalMap_window G (set_init_pose m P)).
- have ne_pl : local_map_ptr_ m != p by apply: contra ne_l => /eqP ->.
  apply: window_inv_frame winv => //.
  by rewrite /GetGlobalMap /Filter /read [mem _]/= load_store_other.
- have ne_pl : local_map_ptr_ m != p by apply: contra ne_l => /eqP ->.
  apply: window_inv_frame winv => //.
  by rewrite /read [mem _]/= load_store_other.
Qed.

Lemma ctor_window h : window_inv (local_map_filter map_file) (Matching_ctor h).
Proof. by rewrite Matching_ctorE; split=> //; rewrite /read /= load_store_same. Qed.

Lemma run_window g l G m cs :
  all (fun c => call_ptr c \notin [:: Some g; Some l]) cs -> local_map_ptr_ m = l ->
  wf m -> global_map_inv g G m -> window_inv G m ->
  [/\ wf (run m cs), global_map_inv g G (run m cs) & window_inv G (run m cs)].
Proof.
rewrite /run; elim: cs m => [|c cs IH] m //= /andP [okc oks] el wfm ginv winv.
have [_ el1 _] := step_ptrs m c.
apply: IH => //; rewrite ?el1 //; first exact: wf_step.
- by apply: step_inv => //; move: okc; rewrite !inE negb_or => /andP [].
- by apply: step_window ginv winv; rewrite // el.
Qed.

(** Along any run whose calls are handed neither the global map nor the
    local map, the box filter's edges are those of its origin, and the
    local map and the registration target are both the crop, at these
    edges, of the filtered map the constructor loaded. *)
Theorem local_map_is_window (h : Mem) (cs : seq Call) :
  all (fun c => call_ptr c \notin [:: Some (size h); Some (size h).+1]) cs ->
  let m := run (Matching_ctor h) cs in
  let window :=
    box_crop (CalculateEdge (origin_ (box_filter_ptr_ m))) (local_map_filter map_file) in
  [/\ GetEdge (box_filter_ptr_ m) = CalculateEdge (origin_ (box_filter_ptr_ m)),
      registration_ptr_ m = window
    & read m (local_map_ptr_ m) = window].
Proof.
move=> ok m window.
have el : local_map_ptr_ (Matching_ctor h) = (size h).+1 by rewrite Matching_ctorE.
have [_ _ [e1 e2 e3]] := run_window ok el (wf_ctor h) (ctor_inv h) (ctor_window h).
by split; rewrite ?e3 /GetEdge ?e2 /window -?e1.
Qed.

(** ** The refresh policy of the local map *)

Inductive Axis : Type := AxisX | AxisY | AxisZ.

Definition axes : seq Axis := [:: AxisX; AxisY; AxisZ].

Definition coord (P : Matrix4f) (a : Axis) : float :=
  match a with AxisX => coeff P 0 3 | AxisY => coeff P 1 3 | AxisZ => coeff P 2 3 end.

Definition near_edge (e : Edge) (a : Axis) : float :=
  match a with AxisX => xmin e | AxisY => ymin e | AxisZ => zmin e end.

Definition far_edge (e : Edge) (a : Axis) : float :=
  match a with AxisX => xmax e | AxisY => ymax e | AxisZ => zmax e end.

(** The test of the loop on a coordinate and an edge,
    [fabs(c - e) > 50.0], and its failure. *)
Definition farther_than_margin (c e : float) : bool := fgt (fabs (fsub c e)) fifty.
Definition within_margin (c e : float) : bool := ~~ farther_than_margin c e.

Definition axis_safe (P : Matrix4f) (e : Edge) (a : Axis) : bool :=
  farther_than_margin (coord P a) (near_edge e a)
  && farther_than_margin (coord P a) (far_edge e a).

Definition axis_trips (P : Matrix4f) (e : Edge) (a : Axis) : bool :=
  within_margin (coord P a) (near_edge e a) || within_margin (coord P a) (far_edge e a).

Lemma axis_trips_unsafe P e a : axis_trips P e a = ~~ axis_safe P e a.
Proof. by rewrite /axis_trips /axis_safe /within_margin negb_and. Qed.

Lemma all_safe_no_trip P e : all (axis_safe P e) axes = ~~ has (axis_trips P e) axes.
Proof. by rewrite -all_predC; apply: eq_all => a /=; rewrite axis_trips_unsafe negbK. Qed.

(** The three iterations of the loop: one recentring on the pose as soon as
    an axis trips, none when every axis is safe. *)
Lemma edge_loop_axes m P e :
  edge_loop m P e 0 3 =
    if has (axis_trips P e) axes
    then ResetLocalMap m (coeff P 0 3) (coeff P 1 3) (coeff P 2 3)
    else m.
Proof.
rewrite /= !axis_trips_unsafe !edge_loopS /axis_safe /farther_than_margin /= orbF.
by do 3![case: (_ && _) => //=].
Qed.

(** An [Update] whose loop trips: one call of the box filter, on the global
    map as the loop finds it, and its crop becomes the local map and the
    target of the registration. *)
Lemma Update_recentred m p :
  has (axis_trips (Update m p).2 (GetEdge (box_filter_ptr_ m))) axes ->
  let P := (Update m p).2 in
  let m' := (Update m p).1 in
  let G := read (after_matching m p).1 (global_map_ptr_ m) in
  let window := box_crop (CalculateEdge (position P)) G in
  [/\ box_calls m' = rcons (box_calls m) (mkBoxCall (position P) G),
      box_filter_ptr_ m' = SetOrigin (position P),
      registration_ptr_ m' = window,
      read m' (local_map_ptr_ m') = window
    & HasNewLocalMap m'].
Proof.
move=> trips P m' G window.
have [_ el _] := Update_ptrs m p.
rewrite /m' el Update_state edge_loop_axes trips -/P.
split=> //; first exact: ResetLocalMap_registration.
exact: (@ResetLocalMap_local_map (after_matching m p).1).
Qed.

(** An [Update] whose loop finds every axis safe leaves the window alone. *)
Lemma Update_not_recentred m p :
  ~~ has (axis_trips (Update m p).2 (GetEdge (box_filter_ptr_ m))) axes ->
  let m' := (Update m p).1 in
  [/\ box_calls m' = box_calls m,
      box_filter_ptr_ m' = box_filter_ptr_ m,
      registration_ptr_ m' = registration_ptr_ m,
      read m' (local_map_ptr_ m') = read (after_matching m p).1 (local_map_ptr_ m)
    & HasNewLocalMap m' = HasNewLocalMap m].
Proof.
move=> /negbTE safe m'.
have [_ el _] := Update_ptrs m p.
by rewrite /m' el Update_state edge_loop_axes safe.
Qed.

(** C3 (amended): after an [Update] that refines to [P], with the edges the
    box filter had on entry and the margin 50, an axis is safe when the
    test of the code, [fabs(c - e) > 50.0] as the floating-point arithmetic
    evaluates it, holds of the coordinate and both of its edges. When every
    axis is safe nothing is recentred: the box filter, the log of its
    calls, the registration target, the local map and its flag are as the
    loop found them. Otherwise, that is when on some axis (the loop takes
    x, y, z in order and stops at the first) the test fails for an edge,
    the local map is recentred exactly once, on [(P.x, P.y, P.z)]: the box
    filter is called once, with that origin, on the global map, and its
    crop becomes the local map and the registration target. The global map
    and the local map the loop finds are those of the object on entry
    whenever the scan is not one of these two clouds. *)
Theorem refresh_policy (m : Matching) (cloud_ptr : CLOUD_PTR) :
  let P := (Update m cloud_ptr).2 in
  let m' := (Update m cloud_ptr).1 in
  let e := GetEdge (box_filter_ptr_ m) in
  let tripped := has (axis_trips P e) axes in
  let before_loop := (after_matching m cloud_ptr).1 in
  let G := read before_loop (global_map_ptr_ m) in
  let window := box_crop (CalculateEdge (position P)) G in
  [/\ all (axis_safe P e) axes = ~~ tripped,
      box_calls m'
        = (if tripped then rcons (box_calls m) (mkBoxCall (position P) G) else box_calls m),
      box_filter_ptr_ m' = (if tripped then SetOrigin (position P) else box_filter_ptr_ m)
    & HasNewLocalMap m' = tripped || HasNewLocalMap m] /\
  [/\ registration_ptr_ m' = (if tripped then window else registration_ptr_ m),
      read m' (local_map_ptr_ m')
        = (if tripped then window else read before_loop (local_map_ptr_ m))
    & wf m -> cloud_ptr \notin [:: global_map_ptr_ m; local_map_ptr_ m] ->
      G = read m (global_map_ptr_ m) /\
      read before_loop (local_map_ptr_ m) = read m (local_map_ptr_ m)].
Proof.
move=> P m' e tripped before_loop G window.
have frame : wf m -> cloud_ptr \notin [:: global_map_ptr_ m; local_map_ptr_ m] ->
    G = read m (global_map_ptr_ m) /\
    read before_loop (local_map_ptr_ m) = read m (local_map_ptr_ m).
  move=> /and4P [lt_g lt_l _ /= /and3P []]; rewrite !inE !negb_or.
  move=> /andP [_ ne_gc] ne_lc _ /andP [ne_pg ne_pl].
  by rewrite /G /before_loop /read !after_matching_load // eq_sym.
case trips : tripped.
- have [bc bf rg lm fl] := Update_recentred trips.
  by split; split=> //; rewrite /m' /HasNewLocalMap ?all_safe_no_trip -/tripped ?trips ?fl.
- have [bc bf rg lm fl] := Update_not_recentred (negbT trips).
  by split; split=> //; rewrite ?all_safe_no_trip -/tripped ?trips.
Qed.

(** ** The caller's scan and the current scan *)

Lemma Update_read_scan m p :
  p \notin [:: local_map_ptr_ m; current_scan_ptr_ m] ->
  read (Update m p).1 p = removeNaNFromPointCloud (read m p).
Proof.
rewrite !inE negb_or => /andP [ne_pl ne_pc].
rewrite Update_state edge_loop_read // /read /after_matching /=.
set h1 := store (mem m) p _; set h2 := store (rcons h1 [::]) (size h1) _.
have lt1 : (p < size h1)%N by exact: lt_size_store.
have lt2 : (p < size h2)%N by exact: leq_trans lt1 (size_store_rcons_le _ _ _).
have ne1 : p != size h1 by rewrite neq_ltn lt1.
have ne2 : p != size h2 by rewrite neq_ltn lt2.
rewrite (load_store_other _ _ ne_pc) (load_store_other _ _ ne2) load_rcons_nil.
by rewrite (load_store_other _ _ ne1) load_rcons_nil load_store_same.
Qed.

Lemma Update_read_current_scan m p :
  current_scan_ptr_ m != local_map_ptr_ m ->
  read (Update m p).1 (current_scan_ptr_ m)
    = transformPointCloud (removeNaNFromPointCloud (read m p)) (Update m p).2.
Proof.
move=> ne_cl; rewrite Update_state edge_loop_read // /read /after_matching /=.
by rewrite load_store_same Update_unfold.
Qed.

Lemma removeNaN_id c : all isFinitePoint c -> removeNaNFromPointCloud c = c.
Proof. by move/all_filterP. Qed.

(** What [Update] leaves in the caller's cloud has finite points only; a
    scan without non-finite points is left as it was; and a second
    [Update] on the same cloud does not change it any more. *)
Theorem Update_scan_cleaned_once (m : Matching) (cloud_ptr : CLOUD_PTR) :
  cloud_ptr \notin [:: local_map_ptr_ m; current_scan_ptr_ m] ->
  let m1 := (Update m cloud_ptr).1 in
  [/\ all isFinitePoint (read m1 cloud_ptr),
      all isFinitePoint (read m cloud_ptr) -> read m1 cloud_ptr = read m cloud_ptr
    & read (Update m1 cloud_ptr).1 cloud_ptr = read m1 cloud_ptr].
Proof.
move=> own m1; have rd1 := Update_read_scan own.
have [_ el ec] := Update_ptrs m cloud_ptr.
have own1 : cloud_ptr \notin [:: local_map_ptr_ m1; current_scan_ptr_ m1].
  by rewrite /m1 el ec.
split; rewrite ?(Update_read_scan own1) /m1 rd1.
- exact: removeNaN_finite.
- exact: removeNaN_id.
- exact/removeNaN_id/removeNaN_finite.
Qed.

End Orchestrator.

(** * The orchestrator in exact arithmetic *)

Section ExactArithmetic.

Variable R : realDomainType.

Local Notation N := (Exact.numerics R).

Variable frame_filter : CLOUD N -> CLOUD N.
Variable CalculateEdge : Origin N -> Edge N.
Variable box_crop : Edge N -> CLOUD N -> CLOUD N.
Variable ScanMatch : CLOUD N -> CLOUD N -> Matrix4f N -> CLOUD N * Matrix4f N.

Local Notation Update := (Update frame_filter CalculateEdge box_crop ScanMatch).
Local Notation after_matching := (after_matching frame_filter ScanMatch).

(** ** The predictor under zero motion *)

(** In exact arithmetic [inverse(P) * P] is the identity for an invertible
    [P], so an [Update] that refines to the pose it had last leaves the
    step at the identity and predicts that same pose. *)
Lemma zero_motion_exact (m : Matching N) (p : CLOUD_PTR) :
  lastPose m \in unitmx -> (Update m p).2 = lastPose m ->
  [/\ stepPose (Update m p).1 = Identity N,
      predictedPose (Update m p).1 = lastPose m
    & lastPose (Update m p).1 = lastPose m].
Proof.
move=> unitP eqP; apply: zero_motion_step eqP _ _; first exact: mulVmx.
exact: mulmx1.
Qed.

(** ** Narrow windows *)

Lemma farther_than_marginE (c e : R) :
  farther_than_margin (N := N) c e = (50%:R < `|c - e|).
Proof. by []. Qed.

Lemma inside_narrow_trips (P : Matrix4f N) (e : Edge N) a :
  (near_edge e a : R) <= coord P a -> (coord P a : R) <= far_edge e a ->
  (far_edge e a : R) - near_edge e a <= 100%:R -> axis_trips P e a.
Proof.
move=> le_n le_f narrow; rewrite /axis_trips /within_margin !farther_than_marginE -!leNgt.
rewrite ger0_norm ?subr_ge0 // distrC ger0_norm ?subr_ge0 //.
case: (lerP (coord P a - near_edge e a) 50%:R) => //= gt_n.
have -> : far_edge e a - coord P a
            = (far_edge e a - near_edge e a) - (coord P a - near_edge e a) :> R.
  by rewrite opprB addrA subrK.
apply: le_trans (lerB narrow (ltW gt_n)) _.
by rewrite -natrB.
Qed.

(** A window no wider than twice the margin on some axis recentres at every
    update whose refined pose lies inside it on that axis: the box filter
    is called once more, on the global map and with the position of the
    pose as origin, and its crop becomes the local map and the target of
    the registration. (Rounding to nearest cannot take a distance of at
    most 50 above 50, so the floating-point test trips as well.) *)
Theorem narrow_window_always_recentres (m : Matching N) (cloud_ptr : CLOUD_PTR) :
  let P := (Update m cloud_ptr).2 in
  let m' := (Update m cloud_ptr).1 in
  let e := GetEdge (box_filter_ptr_ m) in
  has (fun a => [&& (near_edge e a : R) <= coord P a, (coord P a : R) <= far_edge e a
                  & (far_edge e a : R) - near_edge e a <= 100%:R]) axes ->
  let G := read (after_matching m cloud_ptr).1 (global_map_ptr_ m) in
  let window := box_crop (CalculateEdge (position P)) G in
  [/\ box_calls m' = rcons (box_calls m) (mkBoxCall (position P) G),
      box_filter_ptr_ m' = SetOrigin CalculateEdge (position P),
      registration_ptr_ m' = window,
      read m' (local_map_ptr_ m') = window
    & HasNewLocalMap m'].
Proof.
move=> P m' e narrow; apply: Update_recentred.
by apply: sub_has narrow => a /and3P [le_n le_f nw]; apply: inside_narrow_trips.
Qed.

(** ** The current scan *)

Lemma coeff_Identity i j :
  (i < 4)%N -> (j < 4)%N -> Exact.coeff (Exact.Identity R) i j = (i == j)%:R.
Proof.
by move=> lt_i lt_j; rewrite /Exact.coeff /Exact.Identity mxE -val_eqE /= !inordK.
Qed.




End ExactArithmetic.

(** * Configuration of the collaborators

    [InitWithConfig] and the initialisers it calls. A YAML node is a scalar,
    a mapping or undefined; [node[key]] of a missing key is undefined, and
    [as<std::string>()] of anything but a scalar throws. A computation is a
    function of the members that either throws or returns a value and the
    new members. The constructors of the collaborators are not part of
    matching.cpp and are taken to return; the properties below are about
    the calls that return. *)

Module Config.

Import String.StringSyntax.
Local Open Scope string_scope.

Notation string := String.string.

Inductive YAML : Type :=
  | Undefined
  | Scalar (s : string)
  | Mapping (entries : seq (string * YAML)).

Fixpoint lookup (entries : seq (string * YAML)) (key : string) : YAML :=
  if entries is (k, v) :: rest then (if String.eqb k key then v else lookup rest key)
  else Undefined.

(** [node[key]] *)
Definition at_key (node : YAML) (key : string) : YAML :=
  if node is Mapping entries then lookup entries key else Undefined.

(** The collaborators, as the constructor calls that build them. *)
Inductive RegistrationInterface : Type := NDTRegistration (node : YAML).

Inductive CloudFilterInterface : Type := VoxelFilter (node : YAML) | NoFilter.

Record BoxFilter : Type := mkBoxFilter { box_node : YAML }.

Record ScanContextManager : Type := mkScanContextManager {
  manager_node : YAML;
  loaded_index : option string       (* the path given to Load *)
}.

Record Members : Type := mkMembers {
  map_path_ : string;
  loop_closure_method_ : string;
  scan_context_path_ : string;
  scan_context_manager_ptr_ : option ScanContextManager;
  registration_ptr_ : option RegistrationInterface;
  global_map_filter_ptr_ : option CloudFilterInterface;
  box_filter_ptr_ : option BoxFilter;
  local_map_filter_ptr_ : option CloudFilterInterface;
  frame_filter_ptr_ : option CloudFilterInterface
}.

(** A freshly constructed object: empty strings, null pointers. *)
Definition fresh : Members := mkMembers "" "" "" None None None None None None.

(** The member a [std::shared_ptr<CloudFilterInterface>&] argument refers to. *)
Inductive FilterRef : Type := GlobalMapFilter | LocalMapFilter | FrameFilter.

Definition filter_ptr (r : FilterRef) (m : Members) : option CloudFilterInterface :=
  match r with
  | GlobalMapFilter => global_map_filter_ptr_ m
  | LocalMapFilter => local_map_filter_ptr_ m
  | FrameFilter => frame_filter_ptr_ m
  end.

Definition set_filter_ptr (r : FilterRef) (f : CloudFilterInterface) (m : Members) : Members :=
  match r with
  | GlobalMapFilter =>
      mkMembers (map_path_ m) (loop_closure_method_ m) (scan_context_path_ m)
        (scan_context_manager_ptr_ m) (registration_ptr_ m) (Some f) (box_filter_ptr_ m)
        (local_map_filter_ptr_ m) (frame_filter_ptr_ m)
  | LocalMapFilter =>
      mkMembers (map_path_ m) (loop_closure_method_ m) (scan_context_path_ m)
        (scan_context_manager_ptr_ m) (registration_ptr_ m) (global_map_filter_ptr_ m)
        (box_filter_ptr_ m) (Some f) (frame_filter_ptr_ m)
  | FrameFilter =>
      mkMembers (map_path_ m) (loop_closure_method_ m) (scan_context_path_ m)
        (scan_context_manager_ptr_ m) (registration_ptr_ m) (global_map_filter_ptr_ m)
        (box_filter_ptr_ m) (local_map_filter_ptr_ m) (Some f)
  end.

(** *** Computations on the members that may throw *)

Definition M (A : Type) : Type := Members -> option (A * Members).

Definition ret {A : Type} (a : A) : M A := fun m => Some (a, m).

Definition bind {A B : Type} (c : M A) (k : A -> M B) : M B :=
  fun m => if c m is Some (a, m') then k a m' else None.

Definition modify (f : Members -> Members) : M unit := fun m => Some (tt, f m).

(** [node.as<std::string>()] *)
Definition as_string (node : YAML) : M string :=
  fun m => if node is Scalar s then Some (s, m) else None.

Notation "x <- c ;; k" := (bind c (fun x => k))
  (at level 61, c at next level, right associativity).
Notation "c ;;; k" := (bind c (fun _ => k))
  (at level 61, right associativity).

(** *** The initialisers *)

Definition InitDataPath (config_node : YAML) : M bool :=
  path <- as_string (at_key config_node "map_path") ;;
  modify (fun m =>
    mkMembers path (loop_closure_method_ m) (scan_context_path_ m)
      (scan_context_manager_ptr_ m) (registration_ptr_ m) (global_map_filter_ptr_ m)
      (box_filter_ptr_ m) (local_map_filter_ptr_ m) (frame_filter_ptr_ m)) ;;;
  ret true.

Definition InitScanContextManager (config_node : YAML) : M bool :=
  method <- as_string (at_key config_node "loop_closure_method") ;;
  let manager := mkScanContextManager (at_key config_node method) None in
  path <- as_string (at_key config_node "scan_context_path") ;;
  modify (fun m =>
    mkMembers (map_path_ m) method path
      (Some (mkScanContextManager (manager_node manager) (Some path)))
      (registration_ptr_ m) (global_map_filter_ptr_ m)
      (box_filter_ptr_ m) (local_map_filter_ptr_ m) (frame_filter_ptr_ m)) ;;;
  ret true.

Definition InitRegistration (config_node : YAML) : M bool :=
  registration_method <- as_string (at_key config_node "registration_method") ;;
  if String.eqb registration_method "NDT" then
    modify (fun m =>
      mkMembers (map_path_ m) (loop_closure_method_ m) (scan_context_path_ m)
        (scan_context_manager_ptr_ m)
        (Some (NDTRegistration (at_key config_node registration_method)))
        (global_map_filter_ptr_ m) (box_filter_ptr_ m) (local_map_filter_ptr_ m)
        (frame_filter_ptr_ m)) ;;;
    ret true
  else ret false.

Definition InitFilter (filter_user : string) (filter_ptr_ref : FilterRef)
    (config_node : YAML) : M bool :=
  filter_mothod <- as_string (at_key config_node (String.append filter_user "_filter")) ;;
  if String.eqb filter_mothod "voxel_filter" then
    modify (set_filter_ptr filter_ptr_ref
              (VoxelFilter (at_key (at_key config_node filter_mothod) filter_user))) ;;;
    ret true
  else if String.eqb filter_mothod "no_filter" then
    modify (set_filter_ptr filter_ptr_ref NoFilter) ;;;
    ret true
  else ret false.

Definition InitBoxFilter (config_node : YAML) : M bool :=
  modify (fun m =>
    mkMembers (map_path_ m) (loop_closure_method_ m) (scan_context_path_ m)
      (scan_context_manager_ptr_ m) (registration_ptr_ m) (global_map_filter_ptr_ m)
      (Some (mkBoxFilter config_node)) (local_map_filter_ptr_ m) (frame_filter_ptr_ m)) ;;;
  ret true.

(** [InitWithConfig], from the node that [YAML::LoadFile] returns. *)
Definition InitWithConfig (config_node : YAML) : M bool :=
  InitDataPath config_node ;;;
  InitScanContextManager config_node ;;;
  InitRegistration config_node ;;;
  InitFilter "global_map" GlobalMapFilter config_node ;;;
  InitBoxFilter config_node ;;;
  InitFilter "local_map" LocalMapFilter config_node ;;;
  InitFilter "frame" FrameFilter config_node ;;;
  ret true.

(** The name under which a filter user is configured, and whether a name
    is one [InitFilter] knows. *)
Definition filter_method (config_node : YAML) (filter_user : string) : option string :=
  if at_key config_node (String.append filter_user "_filter") is Scalar s then Some s else None.

Definition known_filter (method : string) : bool :=
  String.eqb method "voxel_filter" || String.eqb method "no_filter".

Definition user_of (r : FilterRef) : string :=
  match r with
  | GlobalMapFilter => "global_map"
  | LocalMapFilter => "local_map"
  | FrameFilter => "frame"
  end.

(** *** Properties *)

Lemma bindP {A B : Type} (c : M A) (k : A -> M B) m r :
  bind c k m = Some r -> exists a m', c m = Some (a, m') /\ k a m' = Some r.
Proof. by rewrite /bind; case: (c m) => [[a m']|] // kr; exists a, m'. Qed.

(** Whenever [InitFilter] returns, the method is configured as a scalar and
    the answer is true exactly for the two method names it knows; the call
    has then set the member it was given and no other; for any other name
    it answers false and leaves every member, the pointer included, as it
    was. *)
Theorem InitFilter_dispatch (filter_user : string) (r : FilterRef) (config_node : YAML)
    (m m' : Members) (b : bool) :
  InitFilter filter_user r config_node m = Some (b, m') ->
  exists2 method, filter_method config_node filter_user = Some method &
    b = known_filter method /\
    m' = if known_filter method then
           set_filter_ptr r
             (if String.eqb method "voxel_filter"
              then VoxelFilter (at_key (at_key config_node method) filter_user)
              else NoFilter) m
         else m.
Proof.
rewrite /filter_method /InitFilter /bind /as_string /known_filter.
case: (at_key config_node _) => [|method|entries] //.
case Ev: (String.eqb method "voxel_filter") => /=.
  by case=> <- <-; exists method; rewrite // Ev.
by case En: (String.eqb method "no_filter") => /=; case=> <- <-; exists method;
  rewrite // Ev En.
Qed.

Lemma InitFilter_other_members user r config_node m b m' :
  InitFilter user r config_node m = Some (b, m') ->
  [/\ map_path_ m' = map_path_ m, registration_ptr_ m' = registration_ptr_ m,
      box_filter_ptr_ m' = box_filter_ptr_ m
    & scan_context_manager_ptr_ m' = scan_context_manager_ptr_ m].
Proof.
rewrite /InitFilter /bind /as_string.
case: (at_key config_node _) => [|method|entries] //.
case: (String.eqb method "voxel_filter") => /=; first by case=> _ <-; case: r.
by case: (String.eqb method "no_filter") => /=; case=> _ <- //; case: r.
Qed.

(** Failures of the initialisers are not reported: whenever [InitWithConfig]
    returns at all it returns true, and when the configured registration
    method is not "NDT" the registration pointer is still what it was
    before the call (null in a fresh object). *)
Theorem InitWithConfig_swallows_failure (config_node : YAML) (m m' : Members) (b : bool) :
  InitWithConfig config_node m = Some (b, m') ->
  b = true /\
  (forall method, at_key config_node "registration_method" = Scalar method ->
     String.eqb method "NDT" = false -> registration_ptr_ m' = registration_ptr_ m).
Proof.
rewrite /InitWithConfig.
move=> /bindP [b1 [m1 [i1]]] /bindP [b2 [m2 [i2]]] /bindP [b3 [m3 [i3]]].
move=> /bindP [b4 [m4 [i4]]] /bindP [b5 [m5 [i5]]] /bindP [b6 [m6 [i6]]].
move=> /bindP [b7 [m7 [i7]]] [<- <-]; split=> // method is_m not_ndt.
have [_ -> _ _] := InitFilter_other_members i7.
have [_ -> _ _] := InitFilter_other_members i6.
have -> : registration_ptr_ m5 = registration_ptr_ m4 by case: i5 => _ <-.
have [_ -> _ _] := InitFilter_other_members i4.
have -> : registration_ptr_ m3 = registration_ptr_ m2.
  by move: i3; rewrite /InitRegistration /bind /as_string is_m not_ndt; case=> _ ->.
have -> : registration_ptr_ m2 = registration_ptr_ m1.
  move: i2; rewrite /InitScanContextManager /bind /as_string.
  case: (at_key config_node "loop_closure_method") => [|s|e] //.
  by case: (at_key config_node "scan_context_path") => [|s'|e'] //; case=> _ <-.
move: i1; rewrite /InitDataPath /bind /as_string.
by case: (at_key config_node "map_path") => [|s|e] //; case=> _ <-.
Qed.

Definition same_ref (r r' : FilterRef) : bool :=
  match r, r' with
  | GlobalMapFilter, GlobalMapFilter | LocalMapFilter, LocalMapFilter
  | FrameFilter, FrameFilter => true
  | _, _ => false
  end.

(** What [InitFilter] installs for a method name, over the previous pointer. *)
Definition installed (config_node : YAML) (filter_user method : string)
    (before : option CloudFilterInterface) : option CloudFilterInterface :=
  if String.eqb method "voxel_filter"
  then Some (VoxelFilter (at_key (at_key config_node method) filter_user))
  else if String.eqb method "no_filter" then Some NoFilter
  else before.

Lemma InitFilter_filter_ptr user r config_node m b m' r' :
  InitFilter user r config_node m = Some (b, m') ->
  exists2 method, filter_method config_node user = Some method &
    filter_ptr r' m' =
      if same_ref r r' then installed config_node user method (filter_ptr r' m)
      else filter_ptr r' m.
Proof.
rewrite /InitFilter /filter_method /installed /bind /as_string.
case: (at_key config_node _) => [|method|entries] //.
case Ev: (String.eqb method "voxel_filter") => /=.
  by case=> _ <-; exists method => //; rewrite Ev; case: r; case: r'.
case En: (String.eqb method "no_filter") => /=; case=> _ <-; exists method => //;
  rewrite Ev En.
- by case: r; case: r'.
- by rewrite if_same.
Qed.

Lemma InitDataPath_filter_ptr config_node m b m' r :
  InitDataPath config_node m = Some (b, m') -> filter_ptr r m' = filter_ptr r m.
Proof.
rewrite /InitDataPath /bind /as_string.
by case: (at_key config_node "map_path") => [|s|e] //; case=> _ <-; case: r.
Qed.

Lemma InitScanContextManager_filter_ptr config_node m b m' r :
  InitScanContextManager config_node m = Some (b, m') -> filter_ptr r m' = filter_ptr r m.
Proof.
rewrite /InitScanContextManager /bind /as_string.
case: (at_key config_node "loop_closure_method") => [|s|e] //.
by case: (at_key config_node "scan_context_path") => [|s'|e'] //; case=> _ <-; case: r.
Qed.

Lemma InitRegistration_filter_ptr config_node m b m' r :
  InitRegistration config_node m = Some (b, m') -> filter_ptr r m' = filter_ptr r m.
Proof.
rewrite /InitRegistration /bind /as_string.
case: (at_key config_node "registration_method") => [|s|e] //.
by case: (String.eqb s "NDT") => /=; case=> _ <-; case: r.
Qed.

Lemma InitBoxFilter_filter_ptr config_node m b m' r :
  InitBoxFilter config_node m = Some (b, m') -> filter_ptr r m' = filter_ptr r m.
Proof. by case=> _ <-; case: r. Qed.

(** The filter pointers after a configuration that did not throw: each of
    the three has a configured method, is set when that method is known,
    and is what it was before otherwise. *)
Theorem InitWithConfig_filters (config_node : YAML) (m m' : Members) (b : bool)
    (r : FilterRef) :
  InitWithConfig config_node m = Some (b, m') ->
  exists2 method, filter_method config_node (user_of r) = Some method &
    filter_ptr r m' = installed config_node (user_of r) method (filter_ptr r m).
Proof.
rewrite /InitWithConfig.
move=> /bindP [b1 [m1 [i1]]] /bindP [b2 [m2 [i2]]] /bindP [b3 [m3 [i3]]].
move=> /bindP [b4 [m4 [i4]]] /bindP [b5 [m5 [i5]]] /bindP [b6 [m6 [i6]]].
move=> /bindP [b7 [m7 [i7]]] [_ <-].
have e1 := InitDataPath_filter_ptr r i1.
have e2 := InitScanContextManager_filter_ptr r i2.
have e3 := InitRegistration_filter_ptr r i3.
have [g4 k4 e4] := InitFilter_filter_ptr r i4.
have e5 := InitBoxFilter_filter_ptr r i5.
have [g6 k6 e6] := InitFilter_filter_ptr r i6.
have [g7 k7 e7] := InitFilter_filter_ptr r i7.
case: r e1 e2 e3 e4 e5 e6 e7 => /= e1 e2 e3 e4 e5 e6 e7.
- by exists g4 => //; rewrite e7 e6 e5 e4 e3 e2 e1.
- by exists g6 => //; rewrite e7 e6 e5 e4 e3 e2 e1.
- by exists g7 => //; rewrite e7 e6 e5 e4 e3 e2 e1.
Qed.

(** A configuration with an unknown registration method and an unknown
    filter for the frames. *)
Definition sample : YAML :=
  Mapping [:: ("map_path", Scalar "/data/map.pcd");
              ("loop_closure_method", Scalar "scan_context");
              ("scan_context_path", Scalar "/data/scan_context");
              ("registration_method", Scalar "ICP");
              ("global_map_filter", Scalar "voxel_filter");
              ("local_map_filter", Scalar "no_filter");
              ("frame_filter", Scalar "median_filter");
              ("voxel_filter", Mapping [:: ("global_map", Scalar "0.9")])].

Definition configured : Members :=
  if InitWithConfig sample fresh is Some (_, m) then m else fresh.

Lemma sample_returns : InitWithConfig sample fresh = Some (true, configured).
Proof. by []. Qed.

(** The frame filter of the sample is configured with a name [InitFilter]
    does not know. *)
Lemma InitFilter_dispatch_witness :
  known_filter "median_filter" = false /\
  InitFilter "frame" FrameFilter sample fresh = Some (false, fresh).
Proof.
have returns : InitFilter "frame" FrameFilter sample fresh = Some (false, fresh) by [].
have [method [<-] [unknown _]] := InitFilter_dispatch returns.
by split.
Defined.

Lemma InitWithConfig_swallows_failure_witness :
  registration_ptr_ configured = None.
Proof.
have [_ unset] := InitWithConfig_swallows_failure sample_returns.
exact: (unset "ICP").
Defined.

Lemma InitWithConfig_filters_witness :
  frame_filter_ptr_ configured = None /\ local_map_filter_ptr_ configured = Some NoFilter.
Proof.
have [f kf ef] := InitWithConfig_filters FrameFilter sample_returns.
have [l kl el] := InitWithConfig_filters LocalMapFilter sample_returns.
by move: kf kl ef el => [<-] [<-].
Defined.

End Config.

(** * A concrete configuration

    Integer coordinates, a map of four points, a voxel-like filter that
    keeps every other point for the local map, a cubic box of half-extent
    60, a registration that answers its seed, and a scan context that
    recognises any non-empty scan at the origin. *)

Module Scenario.

Local Open Scope ring_scope.

Local Notation N := (Exact.numerics int).

Definition pt (x y z : int) : POINT N :=
  Exact.mkPoint (Exact.Finite x) (Exact.Finite y) (Exact.Finite z).

Definition nan_pt : POINT N :=
  Exact.mkPoint (@Exact.NonFinite int) (Exact.Finite 0) (Exact.Finite 0).

Definition map_file : CLOUD N := [:: pt 0 0 0; pt 30 0 0; pt 45 0 0; pt 90 0 0].

(** The scan the host holds at address 0 when the object is built. *)
Definition scan : CLOUD N := [:: pt 1 2 3; nan_pt; pt 4 5 6].

Fixpoint decimate (c : CLOUD N) : CLOUD N :=
  match c with
  | p :: _ :: c' => p :: decimate c'
  | _ => c
  end.

Definition no_filter (c : CLOUD N) : CLOUD N := c.

Definition edges (o : Origin N) : Edge N :=
  let: (x, y, z) := o in @mkEdge N (x - 60) (x + 60) (y - 60) (y + 60) (z - 60) (z + 60).

Definition between (lo hi : int) (f : Exact.pcl_float int) : bool :=
  if f is Exact.Finite v then (lo <= v) && (v <= hi) else false.

Definition crop (e : Edge N) (c : CLOUD N) : CLOUD N :=
  [seq p <- c | [&& between (xmin e) (xmax e) (Exact.px p), between (ymin e) (ymax e) (Exact.py p)
                  & between (zmin e) (zmax e) (Exact.pz p)]].

Definition register (target source : CLOUD N) (seed : Matrix4f N) :
    CLOUD N * Matrix4f N :=
  (transformPointCloud source seed, seed).

Definition lookup (c : CLOUD N) : option (Matrix4f N) :=
  if c is [::] then None else Some (Identity N).

(** A pose with no rotation. *)
Definition translation (x y z : int) : Matrix4f N :=
  \matrix_(i, j) (if (j : nat) == 3%N then nth 1 [:: x; y; z] i else (i == j)%:R).

Definition host_memory : Mem N := [:: scan].

Definition built : Matching N := Matching_ctor map_file decimate edges crop host_memory.

Lemma translation_neq_Identity : translation 1 0 0 <> Identity N.
Proof.
move/matrixP => /(_ ord0 ord_max); rewrite !mxE /=.
by [].
Qed.

(** C1, as stated, fails: after the fourth coarse fix the object is not
    yet tracking. *)
Lemma four_coarse_fixes_not_tracking :
  HasInited (foldl (SetGNSSPose edges crop) built (nseq 4 (Identity N))) = false.
Proof. by []. Qed.

Lemma five_coarse_fixes_tracking :
  HasInited (foldl (SetGNSSPose edges crop) built (nseq 5 (Identity N))) = true.
Proof. by []. Qed.

(** C2, as stated, fails: the global map the constructor leaves behind is
    the filtered map, not the loaded one, and the recentring of the
    constructor is given that filtered map. *)
Lemma global_map_filtered_at_startup :
  read built (global_map_ptr_ built) <> map_file /\
  [seq call_input c | c <- box_calls built] <> nseq (size (box_calls built)) map_file.
Proof.
rewrite /built Matching_ctorE /read /=.
split; first by move/(congr1 size).
by move/(congr1 (head [::])) => /(congr1 size).
Qed.

(** C4, as stated, fails for [lastPose]: after two coarse fixes the object
    is not tracking, the most recent coarse fix is the second one, and the
    [lastPose] the next [Update] reads is the first. *)
Lemma lastPose_not_latest_coarse_fix :
  let m := foldl (SetGNSSPose edges crop) built [:: Identity N; translation 1 0 0] in
  [/\ HasInited m = false, current_gnss_pose_ m = translation 1 0 0
    & lastPose m <> current_gnss_pose_ m].
Proof.
split=> //; rewrite [lastPose _]/= [current_gnss_pose_ _]/=.
by move/esym/translation_neq_Identity.
Qed.

(** The calls of a short session, and the configured entry points. *)
Definition session : seq (Call N) :=
  [:: CallSetGNSSPose (Identity N); CallUpdate N 0; CallGetGlobalMap N 0;
      CallSetScanContextPose N 0; CallGetLocalMap N].

Definition run_session (m : Matching N) (cs : seq (Call N)) : Matching N :=
  run no_filter no_filter edges crop register lookup m cs.

Definition update (m : Matching N) (p : CLOUD_PTR) : Matching N * Matrix4f N :=
  Update no_filter edges crop register m p.

Lemma update_built_pose m :
  HasInited m = false -> (update m 0).2 = current_gnss_pose_ m.
Proof. by move=> ni; rewrite /update Update_pose /registration_seed ni. Qed.

(** C7 at work: once marked initialised, the object is still tracking after
    the session. *)
Lemma init_state_monotonic_witness :
  HasInited (SetInited built) /\ HasInited (run_session (SetInited built) session).
Proof.
split; first by [].
apply: (proj1 (@init_state_monotonic N no_filter no_filter edges crop register lookup
                 (SetInited built) session)).
by [].
Defined.

(** C2 (amended) at work on the session, whose calls only pass the host's
    own cloud. *)
Lemma global_map_fixed_after_startup_witness :
  let m := run_session built session in
  [/\ read built (global_map_ptr_ built) = decimate map_file,
      read m (global_map_ptr_ m) = decimate map_file,
      [seq call_input c | c <- box_calls m] = nseq (size (box_calls m)) (decimate map_file)
    & read (GetGlobalMap no_filter m 0) 0 = no_filter (decimate map_file)].
Proof.
apply: (@global_map_fixed_after_startup N map_file no_filter decimate no_filter edges crop
          register lookup host_memory session 0).
by [].
Defined.

(** C10 at work: the host's scan at address 0 loses its non-finite point. *)
Lemma Update_cleans_scan_in_place_witness :
  read (update built 0).1 0 = [:: pt 1 2 3; pt 4 5 6].
Proof.
have wf_built : wf built by [].
have own : 0%N \notin [:: local_map_ptr_ built; current_scan_ptr_ built] by [].
by have [-> _ _] :=
  @Update_cleans_scan_in_place N no_filter edges crop register built 0 wf_built own.
Defined.

(** ** Aliased scans *)

Definition set_gnss (m : Matching N) (g : Matrix4f N) : Matching N :=
  SetGNSSPose edges crop m g.

Lemma coeff_translation x y z i j :
  (i < 4)%N -> (j < 4)%N ->
  Exact.coeff (translation x y z) i j
    = if j == 3%N then nth 1 [:: x; y; z] i else (i == j)%:R.
Proof. by move=> lt_i lt_j; rewrite /Exact.coeff mxE -val_eqE /= !inordK. Qed.

(** Two coarse fixes, the second one step along x, and then a host that
    fills the cloud it was handed as the current scan with its next scan. *)
Definition reusing_current_scan : Matching N :=
  let m := foldl set_gnss built [:: Identity N; translation 1 0 0] in
  write m (GetCurrentScan m).1 [:: pt 0 0 0; nan_pt].

(** C10, as stated, fails when the scan is the cloud the object hands out
    as its current scan: after the call the caller's cloud holds the
    transform of the cleaned scan by the refined pose, not the finite
    points of the scan. *)
Lemma current_scan_as_input_is_transformed :
  let scan_ptr := (GetCurrentScan reusing_current_scan).1 in
  let after := read (update reusing_current_scan scan_ptr).1 scan_ptr in
  [/\ [seq p <- read reusing_current_scan scan_ptr | isFinitePoint p] = [:: pt 0 0 0],
      after = [:: pt 1 0 0]
    & after <> [seq p <- read reusing_current_scan scan_ptr | isFinitePoint p]].
Proof.
have fin : [seq p <- read reusing_current_scan (GetCurrentScan reusing_current_scan).1
                | isFinitePoint p] = [:: pt 0 0 0] by [].
have moved : read (update reusing_current_scan (GetCurrentScan reusing_current_scan).1).1
                  (GetCurrentScan reusing_current_scan).1 = [:: pt 1 0 0].
  rewrite /update [(GetCurrentScan _).1]/= Update_read_current_scan // Update_pose.
  rewrite /removeNaNFromPointCloud fin /=.
  by rewrite /Exact.transformPointCloud /= /Exact.transformPoint /= !coeff_translation.
by split=> //; rewrite moved fin.
Qed.

(** C3 (amended) at work: the scan at address 0 is none of the clouds of
    the object, so the loop of the update finds the global map as it was. *)
Lemma refresh_policy_witness :
  read (after_matching no_filter register built 0).1 (global_map_ptr_ built)
    = decimate map_file.
Proof.
have wf_built : wf built by [].
have own : 0%N \notin [:: global_map_ptr_ built; local_map_ptr_ built] by [].
have [_ [_ _ frame]] := @refresh_policy N no_filter edges crop register built 0.
have [-> _] := frame wf_built own.
by rewrite /built Matching_ctorE.
Defined.

(** ** The further properties at work *)

Lemma tracking_entry_witness :
  (3 < gnss_cnt (foldl set_gnss built (nseq 4 (Identity N))))%N.
Proof.
apply: (@tracking_entry N no_filter no_filter edges crop register lookup
          (foldl set_gnss built (nseq 4 (Identity N))) (CallSetGNSSPose (Identity N))).
- by [].
- by [].
Defined.

Lemma coarse_fix_ignored_when_tracking_witness :
  let m := foldl set_gnss built (nseq 5 (Identity N)) in
  (update (set_gnss m (translation 7 0 0)) 0).2 = (update m 0).2.
Proof.
by apply: (@coarse_fix_ignored_when_tracking N no_filter edges crop register).
Defined.

Lemma place_recognition_seed_witness :
  [seq call_seed c
     | c <- scanmatch_calls (update (SetScanContextPose edges crop lookup built 0).2 0).1]
    = [:: Identity N].
Proof.
have found : lookup (read built 0) = Some (Identity N) by [].
exact: (@place_recognition_seed N no_filter edges crop register lookup built 0 0 _ found).
Defined.

Lemma Update_before_initialisation_witness :
  (update built 0).2 = Identity N.
Proof.
have lt0 : (0 < size host_memory)%N by [].
exact: (@Update_before_initialisation N map_file decimate no_filter edges crop register
          host_memory 0 lt0).
Defined.

Lemma GetGlobalMap_copy_witness :
  read (GetGlobalMap no_filter built 0) 0 = [:: pt 0 0 0; pt 45 0 0].
Proof.
have ne_g : 0%N != global_map_ptr_ built by [].
have ne_q : 1%N != 0%N by [].
by have [-> _ _] := @GetGlobalMap_copy N no_filter built 0 1 ne_g ne_q.
Defined.

Lemma local_map_is_window_witness :
  let m := run_session built session in
  registration_ptr_ m
    = crop (edges (origin_ (box_filter_ptr_ m))) (decimate map_file).
Proof.
have ok : all (fun c => call_ptr c \notin [:: Some (size host_memory);
                                              Some (size host_memory).+1]) session by [].
have [_ target _] := @local_map_is_window N map_file no_filter decimate no_filter edges
                         crop register lookup host_memory session ok.
exact: target.
Defined.

(** The box of the end-to-end scenario: 60 either way in x and y, 10 in z. *)
Definition flat_edges (o : Origin N) : Edge N :=
  let: (x, y, z) := o in @mkEdge N (x - 60) (x + 60) (y - 60) (y + 60) (z - 10) (z + 10).

Definition built_flat : Matching N :=
  Matching_ctor map_file decimate flat_edges crop host_memory.

Lemma flat_pose : (Update no_filter flat_edges crop register built_flat 0).2 = Identity N.
Proof. by rewrite Update_pose. Qed.

Lemma narrow_window_always_recentres_witness :
  registration_ptr_ (Update no_filter flat_edges crop register built_flat 0).1
    = crop (flat_edges (position (Identity N))) (decimate map_file).
Proof.
have [] // := @narrow_window_always_recentres int no_filter flat_edges crop register
                built_flat 0.
by rewrite flat_pose /= !coeff_Identity.
Defined.

Lemma Update_scan_cleaned_once_witness :
  all (@isFinitePoint N) (read (update built 0).1 0).
Proof.
have own : 0%N \notin [:: local_map_ptr_ built; current_scan_ptr_ built] by [].
by have [] := @Update_scan_cleaned_once N no_filter edges crop register built 0 own.
Defined.


End Scenario.

(** * The refresh policy in binary32

    IEEE 754 single precision as [SpecFloat] specifies it (24 bits of
    precision, exponents below 128, rounding to nearest, ties to even), each
    [float] operation being rounded to single precision, as it is where
    [FLT_EVAL_METHOD] is 0 (x86-64 with SSE, AArch64). The
    poses are those that do not rotate, given by their translation: for
    finite translations the product of two of them adds the translations
    and the inverse negates them, and transforming a finite point adds the
    translation to it. *)

Module Binary32.

Import BinNums BinInt SpecFloat.
Delimit Scope Z_scope with binZ.

Definition float32 : Type := spec_float.

Definition add (a b : float32) : float32 := SFadd 24%binZ 128%binZ a b.
Definition sub (a b : float32) : float32 := SFsub 24%binZ 128%binZ a b.
Definition gt (a b : float32) : bool := SFltb b a.

Definition zero : float32 := S754_zero false.
Definition one : float32 := S754_finite false 8388608 (-23)%binZ.      (* 1.0 *)
Definition fifty : float32 := S754_finite false 13107200 (-18)%binZ.   (* 50.0 *)
Definition sixty : float32 := S754_finite false 15728640 (-18)%binZ.   (* 60.0 *)

Definition is_finite (a : float32) : bool :=
  match a with
  | S754_zero _ | S754_finite _ _ _ => true
  | _ => false
  end.

Record PointXYZ : Type := mkPoint { px : float32; py : float32; pz : float32 }.

Definition isFinitePoint (p : PointXYZ) : bool :=
  [&& is_finite (px p), is_finite (py p) & is_finite (pz p)].

Record Translation : Type := mkTranslation { tx : float32; ty : float32; tz : float32 }.

Definition Identity : Translation := mkTranslation zero zero zero.

(** [A * B]: the last column of the product is
    [1 * b + 0 * _ + 0 * _ + a * 1], the rest is that of the identity. *)
Definition mul (A B : Translation) : Translation :=
  mkTranslation (add (tx B) (tx A)) (add (ty B) (ty A)) (add (tz B) (tz A)).

(** [A.inverse()]: the translation by the opposite vector. *)
Definition inverse (A : Translation) : Translation :=
  mkTranslation (SFopp (tx A)) (SFopp (ty A)) (SFopp (tz A)).

(** The coefficients of the 4x4 matrix of a translation. *)
Definition coeff (A : Translation) (i j : nat) : float32 :=
  if j == 3%N then nth one [:: tx A; ty A; tz A] i
  else if i == j then one else zero.

(** [pcl::transformPointCloud] by a translation. *)
Definition transformPointCloud (c : seq PointXYZ) (T : Translation) : seq PointXYZ :=
  [seq mkPoint (add (px p) (tx T)) (add (py p) (ty T)) (add (pz p) (tz T)) | p <- c].

Definition numerics : Numerics :=
  @mkNumerics float32 zero fifty sub SFabs gt
    PointXYZ isFinitePoint
    Translation Identity mul inverse coeff
    transformPointCloud.

Local Notation N := numerics.

(** *** A configuration

    A cubic box of half-extent 60, a registration that answers its seed, no
    downsampling, a map of two points and a host with one scan. *)

Definition cube_edges (o : Origin N) : Edge N :=
  let: (x, y, z) := o in
  @mkEdge N (sub x sixty) (add x sixty) (sub y sixty) (add y sixty) (sub z sixty) (add z sixty).

Definition inside (lo hi v : float32) : bool := SFleb lo v && SFleb v hi.

Definition cube_crop (e : Edge N) (c : CLOUD N) : CLOUD N :=
  [seq p <- c | [&& inside (xmin e) (xmax e) (px p), inside (ymin e) (ymax e) (py p)
                  & inside (zmin e) (zmax e) (pz p)]].

Definition keep_all (c : CLOUD N) : CLOUD N := c.

Definition answer_seed (target source : CLOUD N) (seed : Matrix4f N) :
    CLOUD N * Matrix4f N :=
  (transformPointCloud source seed, seed).

Definition two_points : CLOUD N := [:: mkPoint zero zero zero; mkPoint fifty zero zero].

Definition one_scan : Mem N := [:: [:: mkPoint one one one]].

Definition constructed : Matching N :=
  Matching_ctor two_points keep_all cube_edges cube_crop one_scan.

Definition update32 (m : Matching N) (p : CLOUD_PTR) : Matching N * Matrix4f N :=
  Update keep_all cube_edges cube_crop answer_seed m p.

(** The pose at x = -(10 - 2^-19), y = z = 0; x is the float
    -10485758 * 2^-20. *)
Definition near_margin : Matrix4f N :=
  mkTranslation (S754_finite true 10485758 (-20)%binZ) zero zero.

(** Two coarse fixes: the first commits the origin, the second is the seed
    of the next update. *)
Definition located : Matching N :=
  foldl (SetGNSSPose cube_edges cube_crop) constructed [:: Identity; near_margin].

(** *** Distances as real numbers *)

(** A finite float is [m * 2^e] for the integers [(m, e)]. *)
Definition exact_value (a : float32) : option (Z * Z) :=
  match a with
  | S754_zero _ => Some (0%binZ, 0%binZ)
  | S754_finite s m e => Some (if s then Zneg m else Zpos m, e)
  | _ => None
  end.

(** Whether two finite floats are farther than 50 apart as real numbers:
    with [e] the smaller exponent, [|a - b| = d * 2^e] for the integer
    [d] below. *)
Definition exactly_farther_than_50 (a b : float32) : bool :=
  match exact_value a, exact_value b with
  | Some (ma, ea), Some (mb, eb) =>
      let e := Z.min ea eb in
      let d := Z.abs (ma * 2 ^ (ea - e) - mb * 2 ^ (eb - e))%binZ in
      if (0 <=? e)%binZ then (50 <? d * 2 ^ e)%binZ else (50 * 2 ^ (- e) <? d)%binZ
  | _, _ => false
  end.

Lemma located_pose : (update32 located 0).2 = near_margin.
Proof. by rewrite /update32 Update_pose. Qed.

(** C3, as stated, fails where rounding meets the margin. The window has
    half-extent 60 around the origin and the update refines to the pose at
    x = -(10 - 2^-19), y = z = 0: as real numbers the pose is farther than
    50 from each of the six edges (50 + 2^-19 from the near edge in x). The
    difference the code computes for that edge is rounded to 50.0, the test
    [> 50.0] fails, and the local map is recentred on the pose. *)
Lemma rounding_recentres_beyond_margin :
  let P := (update32 located 0).2 in
  let m' := (update32 located 0).1 in
  let e := GetEdge (box_filter_ptr_ located) in
  [/\ all (fun a => exactly_farther_than_50 (coord P a) (near_edge e a)
                    && exactly_farther_than_50 (coord P a) (far_edge e a)) axes,
      sub (coord P AxisX) (near_edge e AxisX) = fifty,
      [seq call_origin c | c <- box_calls m']
        = rcons [seq call_origin c | c <- box_calls located] (position P)
    & box_filter_ptr_ m' = SetOrigin cube_edges (position P)].
Proof.
have trips : has (axis_trips (update32 located 0).2 (GetEdge (box_filter_ptr_ located))) axes.
  by rewrite located_pose; vm_compute.
have [bc bf _ _ _] := Update_recentred trips.
rewrite /update32 bc bf map_rcons -/(update32 located 0) located_pose.
by split=> //; vm_compute.
Qed.

(** *** A pose that is not a number *)

Definition is_nan (a : float32) : bool := if a is S754_nan then true else false.

Lemma nan_within_margin (c e : float32) : is_nan c -> within_margin (N := N) c e.
Proof. by case: c => //; case: e. Qed.

Section NaNPose.

Variable frame_filter : CLOUD N -> CLOUD N.
Variable CalculateEdge : Origin N -> Edge N.
Variable box_crop : Edge N -> CLOUD N -> CLOUD N.
Variable ScanMatch : CLOUD N -> CLOUD N -> Matrix4f N -> CLOUD N * Matrix4f N.

(** Every comparison with a NaN is false, so a refined pose with a NaN
    coordinate fails the test of the loop on that axis: the update recentres
    the local map on the position of that pose, whatever the window was. *)
Theorem nan_pose_recentres (m : Matching N) (cloud_ptr : CLOUD_PTR) :
  let P := (Update frame_filter CalculateEdge box_crop ScanMatch m cloud_ptr).2 in
  let m' := (Update frame_filter CalculateEdge box_crop ScanMatch m cloud_ptr).1 in
  has (fun a => is_nan (coord P a)) axes ->
  let G := read (after_matching frame_filter ScanMatch m cloud_ptr).1 (global_map_ptr_ m) in
  let window := box_crop (CalculateEdge (position P)) G in
  [/\ box_calls m' = rcons (box_calls m) (mkBoxCall (position P) G),
      box_filter_ptr_ m' = SetOrigin CalculateEdge (position P),
      registration_ptr_ m' = window,
      read m' (local_map_ptr_ m') = window
    & HasNewLocalMap m'].
Proof.
move=> P m' nan; apply: Update_recentred.
by apply: sub_has nan => a nan_a; rewrite /axis_trips nan_within_margin.
Qed.

End NaNPose.

(** A second coarse fix whose x is NaN seeds an update that recentres the
    box filter on it. *)
Definition lost : Matching N :=
  foldl (SetGNSSPose cube_edges cube_crop) constructed
    [:: Identity; mkTranslation S754_nan zero zero].

Lemma nan_pose_recentres_witness :
  origin_ (box_filter_ptr_ (update32 lost 0).1) = (S754_nan, zero, zero).
Proof.
have nan : has (fun a => is_nan (coord (update32 lost 0).2 a)) axes.
  by rewrite /update32 Update_pose.
by have [_ -> _ _ _] := @nan_pose_recentres keep_all cube_edges cube_crop answer_seed lost 0 nan.
Defined.

End Binary32.
